(** * ROL::NewtonKrylovStep: a shallow embedding and its properties

    Source: packages/rol/src/step/ROL_NewtonKrylovStep.hpp

    The class composes four abstract collaborators (Vector, Objective,
    Krylov, Secant) into one stateful optimisation step.  Every C++ object
    that is reached through a reference or a [Teuchos::RCP] lives in a
    store and is named by its address, so that aliasing and object identity
    are visible; the methods of the class are programs of a state-and-error
    monad over that store.

    - [Real] is the template parameter of the class.  It is kept abstract:
      the step only uses the constants [1.0], [-1.0] and
      [sqrt(ROL_EPSILON)] and hands every other number to a collaborator.
    - [int] members and counters are modelled by [Z].  Signed overflow is
      undefined in C++, so there is no wrap-around to write out; the model
      describes the runs on which the counters stay representable.
    - A null [RCP] is [None]; dereferencing it, or naming an address that is
      not allocated, makes the program fail ([None] result). *)

From stdpp Require Import base option list gmap strings pretty.
From Stdlib Require Import ZArith Lia Ascii String.

Set Default Proof Using "Type".
Local Open Scope Z_scope.

(** Addresses of [Vector] objects and of collaborator objects. *)
Abbreviation loc := positive (only parsing).
Abbreviation ref := positive (only parsing).

(** ** Collaborator interfaces *)

(** The numeric template parameter. *)
Class RealOps (Real : Type) := {
  R_one : Real;               (* the literal 1.0 *)
  R_minus_one : Real;         (* the literal -1.0 *)
  sqrt_ROL_EPSILON : Real;    (* std::sqrt(ROL_EPSILON<Real>()) *)
  show_Real : Real → string;  (* operator<< under std::scientific, precision 6 *)
}.

(** [ROL::Vector<Real>]: the operations the step calls.  [v_axpy a x y] is
    the content of [y] after [y.axpy(a,x)], [v_scale a y] the content of
    [y] after [y.scale(a)], [v_clone y] the content of the fresh vector
    returned by [y.clone()].  [set] copies its argument and is modelled as
    assignment in the store. *)
Class Vector (Real V : Type) := {
  v_scale : Real → V → V;
  v_axpy : Real → V → V → V;
  v_dual : V → V;
  v_norm : V → Real;
  v_clone : V → V;
}.

(** [ROL::Objective<Real>].  None of its methods is const, so each returns
    the new state of the objective object.  [tol] is passed by reference:
    each oracle returns the tolerance it leaves behind.  Output vectors are
    passed by reference too, so the oracle sees their previous content. *)
Class Objective (Real V Obj : Type) := {
  obj_update : Obj → V → bool → Z → Obj;
  obj_value : Obj → V → Real → Obj * Real * Real;
  obj_gradient : Obj → V → V → Real → Obj * V * Real;
  obj_hessVec : Obj → V → V → V → Real → Obj * V * Real;
  obj_precond : Obj → V → V → V → Real → Obj * V * Real;
}.

(** What [Krylov::run] may do with the two [LinearOperator] references it
    receives: call [apply] or [applyInverse] on either, any number of
    times, on vectors of its own. *)
Inductive Which := OpA | OpM.
Inductive Method := Apply | ApplyInverse.

Inductive KrylovProg (Real V R : Type) : Type :=
| KRet (r : R)
| KCall (w : Which) (f : Method) (Hv v : V) (tol : Real)
        (k : V → Real → KrylovProg Real V R).
Arguments KRet {Real V R} r.
Arguments KCall {Real V R} w f Hv v tol k.

(** [ROL::Krylov<Real>]: [krylov_run K x b iter flag] is the body of
    [run(x,A,b,M,iter,flag)] on a solver object in state [K]; it ends with
    the new solver state, the direction left in [x], and the values left in
    [iter] and [flag]. *)
Class Krylov (Real V K : Type) := {
  krylov_run : K → V → V → Z → Z → KrylovProg Real V (K * V * Z * Z);
}.

(** [ROL::Secant<Real>], which is also a [LinearOperator] (const [apply]
    and [applyInverse]). *)
Class Secant (Real V S : Type) := {
  secant_updateStorage : S → V → V → V → V → Real → Z → S;
  secant_apply : S → V → V → Real → V * Real;
  secant_applyInverse : S → V → V → Real → V * Real;
}.

(** [Teuchos::ParameterList], the enumerations and name tables of
    ROL_Types.hpp, and the two factories.  A factory that rejects the
    configuration throws: [None]. *)
Class Config (Real V PL EKrylov ESecant K S : Type) := {
  sublist : PL → string → PL;
  get_bool : PL → string → bool → bool;
  get_int : PL → string → Z → Z;
  get_string : PL → string → string → string;
  StringToEKrylov : string → EKrylov;
  StringToESecant : string → ESecant;
  EKrylovToString : EKrylov → string;
  ESecantToString : ESecant → string;
  KRYLOV_USERDEFINED : EKrylov;
  SECANT_USERDEFINED : ESecant;
  EDescentToString_DESCENT_NEWTONKRYLOV : string;
  KrylovFactory_new : PL → option K;
  SecantFactory_new : PL → option S;
  (* LinearOperator::applyInverse as the base class defines it *)
  LinearOperator_applyInverse : V → V → Real → V * Real;
}.

(** ** State *)

(** [ROL::StepState<Real>]: the two members the step reaches. *)
Record StepState := mkStepState {
  gradientVec : option loc;
  descentVec : option loc;
}.

(** [ROL::AlgorithmState<Real>]: the members the step reaches. *)
Record AlgorithmState (Real : Type) := mkAlgorithmState {
  iter : Z;
  value : Real;
  gnorm : Real;
  snorm : Real;
  nfval : Z;
  ngrad : Z;
  iterateVec : option loc;
}.
Arguments mkAlgorithmState {Real}.
Arguments iter {Real}.
Arguments value {Real}.
Arguments gnorm {Real}.
Arguments snorm {Real}.
Arguments nfval {Real}.
Arguments ngrad {Real}.
Arguments iterateVec {Real}.

(** The members of [NewtonKrylovStep], with the [state_] member of its
    base class [Step]. *)
Record NewtonKrylovStep (EKrylov ESecant : Type) := mkNewtonKrylovStep {
  state_ : StepState;
  secant_ : option ref;
  krylov_ : option ref;
  ekv_ : EKrylov;
  esec_ : ESecant;
  gp_ : option loc;
  iterKrylov_ : Z;
  flagKrylov_ : Z;
  verbosity_ : Z;
  useSecantPrecond_ : bool;
}.
Arguments mkNewtonKrylovStep {EKrylov ESecant}.
Arguments state_ {EKrylov ESecant}.
Arguments secant_ {EKrylov ESecant}.
Arguments krylov_ {EKrylov ESecant}.
Arguments ekv_ {EKrylov ESecant}.
Arguments esec_ {EKrylov ESecant}.
Arguments gp_ {EKrylov ESecant}.
Arguments iterKrylov_ {EKrylov ESecant}.
Arguments flagKrylov_ {EKrylov ESecant}.
Arguments verbosity_ {EKrylov ESecant}.
Arguments useSecantPrecond_ {EKrylov ESecant}.

(** Calls that leave the class, in the order they are made (most recent
    first).  Objective calls record the point they are made at. *)
Inductive Event (V : Type) :=
| EvKrylovFactory (k : ref)
| EvSecantFactory (sc : ref)
| EvKrylovRun (k : ref)
| EvSecantApply (sc : ref)
| EvSecantApplyInverse (sc : ref)
| EvSecantUpdate (sc : ref)
| EvClone (src new : loc)
| EvObjUpdate (o : ref) (x : V) (it : Z)
| EvObjValue (o : ref) (x : V)
| EvObjGradient (o : ref) (x : V)
| EvObjHessVec (o : ref) (x : V)
| EvObjPrecond (o : ref) (x : V).
Arguments EvKrylovFactory {V}.
Arguments EvSecantFactory {V}.
Arguments EvKrylovRun {V}.
Arguments EvSecantApply {V}.
Arguments EvSecantApplyInverse {V}.
Arguments EvSecantUpdate {V}.
Arguments EvClone {V}.
Arguments EvObjUpdate {V}.
Arguments EvObjValue {V}.
Arguments EvObjGradient {V}.
Arguments EvObjHessVec {V}.
Arguments EvObjPrecond {V}.

(** The whole machine: the step object, the [AlgorithmState] the driver
    passes by reference, and the stores of the objects they point to. *)
Record Machine (Real V Obj K S EKrylov ESecant : Type) := mkMachine {
  this : NewtonKrylovStep EKrylov ESecant;
  algo_state : AlgorithmState Real;
  heap : gmap loc V;
  objectives : gmap ref Obj;
  krylovs : gmap ref K;
  secants : gmap ref S;
  trace : list (Event V);
}.
Arguments mkMachine {Real V Obj K S EKrylov ESecant}.
Arguments this {Real V Obj K S EKrylov ESecant}.
Arguments algo_state {Real V Obj K S EKrylov ESecant}.
Arguments heap {Real V Obj K S EKrylov ESecant}.
Arguments objectives {Real V Obj K S EKrylov ESecant}.
Arguments krylovs {Real V Obj K S EKrylov ESecant}.
Arguments secants {Real V Obj K S EKrylov ESecant}.
Arguments trace {Real V Obj K S EKrylov ESecant}.

(** What the base class [Step] can reach: its own [state_], the
    [AlgorithmState], the vectors and the objective. *)
Record BaseView (Real V Obj : Type) := mkBaseView {
  bv_state : StepState;
  bv_algo : AlgorithmState Real;
  bv_heap : gmap loc V;
  bv_objectives : gmap ref Obj;
}.
Arguments mkBaseView {Real V Obj}.
Arguments bv_state {Real V Obj}.
Arguments bv_algo {Real V Obj}.
Arguments bv_heap {Real V Obj}.
Arguments bv_objectives {Real V Obj}.

(** [ROL::Step<Real>], the base class (ROL_Step.hpp): its constructor and
    its [initialize]. *)
Class StepBase (Real V Obj Bnd : Type) := {
  Step_new : StepState;
  Step_initialize :
    loc → loc → loc → ref → Bnd → BaseView Real V Obj → option (BaseView Real V Obj);
}.

(** ** The methods *)

Section Step.
Context {Real V Obj K S PL EKrylov ESecant Bnd : Type}.
Context `{!RealOps Real, !Vector Real V, !Objective Real V Obj,
          !Krylov Real V K, !Secant Real V S,
          !Config Real V PL EKrylov ESecant K S, !StepBase Real V Obj Bnd}.

Abbreviation machine := (Machine Real V Obj K S EKrylov ESecant).
Abbreviation step := (NewtonKrylovStep EKrylov ESecant).

(** *** Field updates *)

Definition set_this (f : step → step) (m : machine) : machine :=
  mkMachine (f (this m)) (algo_state m) (heap m) (objectives m)
            (krylovs m) (secants m) (trace m).
Definition set_algo_state (f : AlgorithmState Real → AlgorithmState Real)
    (m : machine) : machine :=
  mkMachine (this m) (f (algo_state m)) (heap m) (objectives m)
            (krylovs m) (secants m) (trace m).
Definition set_heap (f : gmap loc V → gmap loc V) (m : machine) : machine :=
  mkMachine (this m) (algo_state m) (f (heap m)) (objectives m)
            (krylovs m) (secants m) (trace m).
Definition set_objectives (f : gmap ref Obj → gmap ref Obj) (m : machine) : machine :=
  mkMachine (this m) (algo_state m) (heap m) (f (objectives m))
            (krylovs m) (secants m) (trace m).
Definition set_krylovs (f : gmap ref K → gmap ref K) (m : machine) : machine :=
  mkMachine (this m) (algo_state m) (heap m) (objectives m)
            (f (krylovs m)) (secants m) (trace m).
Definition set_secants (f : gmap ref S → gmap ref S) (m : machine) : machine :=
  mkMachine (this m) (algo_state m) (heap m) (objectives m)
            (krylovs m) (f (secants m)) (trace m).
Definition set_trace (f : list (Event V) → list (Event V)) (m : machine) : machine :=
  mkMachine (this m) (algo_state m) (heap m) (objectives m)
            (krylovs m) (secants m) (f (trace m)).

Definition with_state_ (x : StepState) (t : step) : step :=
  mkNewtonKrylovStep x (secant_ t) (krylov_ t) (ekv_ t) (esec_ t) (gp_ t)
    (iterKrylov_ t) (flagKrylov_ t) (verbosity_ t) (useSecantPrecond_ t).
Definition with_secant_ (x : option ref) (t : step) : step :=
  mkNewtonKrylovStep (state_ t) x (krylov_ t) (ekv_ t) (esec_ t) (gp_ t)
    (iterKrylov_ t) (flagKrylov_ t) (verbosity_ t) (useSecantPrecond_ t).
Definition with_krylov_ (x : option ref) (t : step) : step :=
  mkNewtonKrylovStep (state_ t) (secant_ t) x (ekv_ t) (esec_ t) (gp_ t)
    (iterKrylov_ t) (flagKrylov_ t) (verbosity_ t) (useSecantPrecond_ t).
Definition with_ekv_ (x : EKrylov) (t : step) : step :=
  mkNewtonKrylovStep (state_ t) (secant_ t) (krylov_ t) x (esec_ t) (gp_ t)
    (iterKrylov_ t) (flagKrylov_ t) (verbosity_ t) (useSecantPrecond_ t).
Definition with_esec_ (x : ESecant) (t : step) : step :=
  mkNewtonKrylovStep (state_ t) (secant_ t) (krylov_ t) (ekv_ t) x (gp_ t)
    (iterKrylov_ t) (flagKrylov_ t) (verbosity_ t) (useSecantPrecond_ t).
Definition with_gp_ (x : option loc) (t : step) : step :=
  mkNewtonKrylovStep (state_ t) (secant_ t) (krylov_ t) (ekv_ t) (esec_ t) x
    (iterKrylov_ t) (flagKrylov_ t) (verbosity_ t) (useSecantPrecond_ t).
Definition with_iterKrylov_ (x : Z) (t : step) : step :=
  mkNewtonKrylovStep (state_ t) (secant_ t) (krylov_ t) (ekv_ t) (esec_ t) (gp_ t)
    x (flagKrylov_ t) (verbosity_ t) (useSecantPrecond_ t).
Definition with_flagKrylov_ (x : Z) (t : step) : step :=
  mkNewtonKrylovStep (state_ t) (secant_ t) (krylov_ t) (ekv_ t) (esec_ t) (gp_ t)
    (iterKrylov_ t) x (verbosity_ t) (useSecantPrecond_ t).
Definition with_verbosity_ (x : Z) (t : step) : step :=
  mkNewtonKrylovStep (state_ t) (secant_ t) (krylov_ t) (ekv_ t) (esec_ t) (gp_ t)
    (iterKrylov_ t) (flagKrylov_ t) x (useSecantPrecond_ t).
Definition with_useSecantPrecond_ (x : bool) (t : step) : step :=
  mkNewtonKrylovStep (state_ t) (secant_ t) (krylov_ t) (ekv_ t) (esec_ t) (gp_ t)
    (iterKrylov_ t) (flagKrylov_ t) (verbosity_ t) x.

Definition with_iter (x : Z) (a : AlgorithmState Real) : AlgorithmState Real :=
  mkAlgorithmState x (value a) (gnorm a) (snorm a) (nfval a) (ngrad a) (iterateVec a).
Definition with_value (x : Real) (a : AlgorithmState Real) : AlgorithmState Real :=
  mkAlgorithmState (iter a) x (gnorm a) (snorm a) (nfval a) (ngrad a) (iterateVec a).
Definition with_gnorm (x : Real) (a : AlgorithmState Real) : AlgorithmState Real :=
  mkAlgorithmState (iter a) (value a) x (snorm a) (nfval a) (ngrad a) (iterateVec a).
Definition with_snorm (x : Real) (a : AlgorithmState Real) : AlgorithmState Real :=
  mkAlgorithmState (iter a) (value a) (gnorm a) x (nfval a) (ngrad a) (iterateVec a).
Definition with_ngrad (x : Z) (a : AlgorithmState Real) : AlgorithmState Real :=
  mkAlgorithmState (iter a) (value a) (gnorm a) (snorm a) (nfval a) x (iterateVec a).

(** *** The monad: state threaded through, [None] on a failure *)

Definition M (A : Type) : Type := machine → option (A * machine).

#[global] Instance M_ret : MRet M := λ A a m, Some (a, m).
#[global] Instance M_bind : MBind M := λ A B f c m,
  match c m with
  | Some (a, m') => f a m'
  | None => None
  end.

Definition get : M machine := λ m, Some (m, m).
Definition modify (f : machine → machine) : M unit := λ m, Some (tt, f m).
Definition lift {A} (o : option A) : M A := λ m,
  match o with Some a => Some (a, m) | None => None end.
Definition emit (e : Event V) : M unit := modify (set_trace (cons e)).

(** [*p] and [p->] on an [RCP]. *)
Definition deref {A} (p : option A) : M A := lift p.

(** *** Vector objects in the store *)

Definition load (l : loc) : M V := m ← get; lift (heap m !! l).
Definition store (l : loc) (v : V) : M unit := modify (set_heap <[l:=v]>).

(* dst.set(src) *)
Definition vec_set (dst src : loc) : M unit :=
  v ← load src; _ ← load dst; store dst v.
(* dst.set(src.dual()) *)
Definition vec_set_dual (dst src : loc) : M unit :=
  v ← load src; _ ← load dst; store dst (v_dual v).
(* y.scale(a) *)
Definition vec_scale (y : loc) (a : Real) : M unit :=
  yv ← load y; store y (v_scale a yv).
(* y.axpy(a,x) *)
Definition vec_axpy (y : loc) (a : Real) (x : loc) : M unit :=
  xv ← load x; yv ← load y; store y (v_axpy a xv yv).
(* y.norm() *)
Definition vec_norm (y : loc) : M Real := yv ← load y; mret (v_norm yv).
(* y.clone(): a new vector object *)
Definition vec_clone (y : loc) : M loc :=
  yv ← load y; m ← get;
  let l := fresh (dom (heap m)) in
  store l (v_clone yv);; emit (EvClone y l);; mret l.

(** *** Calls on the objective *)

Definition load_obj (obj : ref) : M Obj := m ← get; lift (objectives m !! obj).
Definition store_obj (obj : ref) (o : Obj) : M unit :=
  modify (set_objectives <[obj:=o]>).

(* obj.update(x,flag,iter) *)
Definition Objective_update (obj : ref) (x : loc) (flag : bool) (it : Z) : M unit :=
  o ← load_obj obj; xv ← load x;
  store_obj obj (obj_update o xv flag it);;
  emit (EvObjUpdate obj xv it).

(* obj.value(x,tol): the value and the tolerance left in tol *)
Definition Objective_value (obj : ref) (x : loc) (tol : Real) : M (Real * Real) :=
  o ← load_obj obj; xv ← load x;
  let '(o', val, tol') := obj_value o xv tol in
  store_obj obj o';; emit (EvObjValue obj xv);; mret (val, tol').

(* obj.gradient(g,x,tol): writes g, returns the tolerance left in tol *)
Definition Objective_gradient (obj : ref) (g x : loc) (tol : Real) : M Real :=
  o ← load_obj obj; gv ← load g; xv ← load x;
  let '(o', gv', tol') := obj_gradient o gv xv tol in
  store_obj obj o';; store g gv';; emit (EvObjGradient obj xv);; mret tol'.

(* obj.hessVec(Hv,v,x,tol) and obj.precond(Pv,v,x,tol), called from the
   operator wrappers on vectors that belong to the Krylov solver *)
Definition Objective_hessVec (obj : ref) (Hv v : V) (x : loc) (tol : Real)
    : M (V * Real) :=
  o ← load_obj obj; xv ← load x;
  let '(o', Hv', tol') := obj_hessVec o Hv v xv tol in
  store_obj obj o';; emit (EvObjHessVec obj xv);; mret (Hv', tol').

Definition Objective_precond (obj : ref) (Pv v : V) (x : loc) (tol : Real)
    : M (V * Real) :=
  o ← load_obj obj; xv ← load x;
  let '(o', Pv', tol') := obj_precond o Pv v xv tol in
  store_obj obj o';; emit (EvObjPrecond obj xv);; mret (Pv', tol').

(** *** Linear operators *)

(** The three operators that reach [Krylov::run]: the private classes
    [HessianNK] and [PrecondNK], each holding the objective and the [RCP]
    of the point it was built with, and the secant object itself. *)
Inductive LinearOperator :=
| HessianNK (obj_ : ref) (x_ : option loc)
| PrecondNK (obj_ : ref) (x_ : option loc)
| SecantOperator (sc : ref).

Definition load_secant (sc : ref) : M S := m ← get; lift (secants m !! sc).

Definition LinearOperator_apply (op : LinearOperator) (Hv v : V) (tol : Real)
    : M (V * Real) :=
  match op with
  | HessianNK obj_ x_ =>
      (* obj_->hessVec(Hv,v,*x_,tol) *)
      x ← deref x_; Objective_hessVec obj_ Hv v x tol
  | PrecondNK obj_ x_ =>
      (* Hv.set(v.dual()) *)
      mret (v_dual v, tol)
  | SecantOperator sc =>
      B ← load_secant sc; emit (EvSecantApply sc);; mret (secant_apply B Hv v tol)
  end.

Definition LinearOperator_applyInv (op : LinearOperator) (Hv v : V) (tol : Real)
    : M (V * Real) :=
  match op with
  | HessianNK obj_ x_ =>
      (* not overridden: the base class's applyInverse *)
      mret (LinearOperator_applyInverse Hv v tol)
  | PrecondNK obj_ x_ =>
      (* obj_->precond(Hv,v,*x_,tol) *)
      x ← deref x_; Objective_precond obj_ Hv v x tol
  | SecantOperator sc =>
      B ← load_secant sc; emit (EvSecantApplyInverse sc);;
      mret (secant_applyInverse B Hv v tol)
  end.

(** *** The Krylov solver *)

(** Running the body of [run] against the operators [A] and [M_]. *)
Fixpoint run_prog {R} (A M_ : LinearOperator) (p : KrylovProg Real V R) : M R :=
  match p with
  | KRet r => mret r
  | KCall w f Hv v tol k =>
      let op := match w with OpA => A | OpM => M_ end in
      '(Hv', tol') ← match f with
                     | Apply => LinearOperator_apply op Hv v tol
                     | ApplyInverse => LinearOperator_applyInv op Hv v tol
                     end;
      run_prog A M_ (k Hv' tol')
  end.

Definition load_krylov (k : ref) : M K := m ← get; lift (krylovs m !! k).

(* krylov->run(x,A,b,M,iterKrylov_,flagKrylov_).  x and b are read when run
   is entered; x and the two int members, passed by reference, are written
   when it returns.  In between the solver only calls the two operators. *)
Definition Krylov_run (k : ref) (x : loc) (A : LinearOperator) (b : loc)
    (M_ : LinearOperator) : M unit :=
  Kst ← load_krylov k; xv ← load x; bv ← load b; m ← get;
  emit (EvKrylovRun k);;
  '(Kst', d, it, fl) ←
     run_prog A M_ (krylov_run Kst xv bv (iterKrylov_ (this m)) (flagKrylov_ (this m)));
  modify (set_krylovs <[k:=Kst']>);;
  store x d;;
  modify (set_this (with_iterKrylov_ it));;
  modify (set_this (with_flagKrylov_ fl)).

(** *** Constructors *)

(* KrylovFactory<Real>(parlist): a new solver object *)
Definition KrylovFactory (parlist : PL) : M ref :=
  Kst ← lift (KrylovFactory_new parlist); m ← get;
  let k := fresh (dom (krylovs m)) in
  modify (set_krylovs <[k:=Kst]>);; emit (EvKrylovFactory k);; mret k.

(* SecantFactory<Real>(parlist): a new secant object *)
Definition SecantFactory (parlist : PL) : M ref :=
  B ← lift (SecantFactory_new parlist); m ← get;
  let sc := fresh (dom (secants m)) in
  modify (set_secants <[sc:=B]>);; emit (EvSecantFactory sc);; mret sc.

(** [NewtonKrylovStep(parlist)].  The constructor initialises the storage of
    the object: [ekv_] and [esec_] are not in the initialiser list and keep
    whatever the storage held until the body assigns them. *)
Definition NewtonKrylovStep_ctor (parlist : PL) : M unit :=
  modify (set_this (λ t,
    mkNewtonKrylovStep Step_new None None (ekv_ t) (esec_ t) None 0 0 0 false));;
  (* Parse ParameterList *)
  let Glist := sublist parlist "General" in
  modify (set_this (with_useSecantPrecond_
    (get_bool (sublist Glist "Secant") "Use as Preconditioner" false)));;
  modify (set_this (with_verbosity_ (get_int Glist "Print Verbosity" 0)));;
  (* Initialize Krylov object *)
  modify (set_this (with_ekv_ (StringToEKrylov
    (get_string (sublist Glist "Krylov") "Type" "Conjugate Gradients"))));;
  k ← KrylovFactory parlist;
  modify (set_this (with_krylov_ (Some k)));;
  (* Initialize secant object *)
  modify (set_this (with_esec_ (StringToESecant
    (get_string (sublist Glist "Secant") "Type" "Limited-Memory BFGS"))));;
  m ← get;
  if useSecantPrecond_ (this m) then
    sc ← SecantFactory parlist; modify (set_this (with_secant_ (Some sc)))
  else mret tt.

(** [NewtonKrylovStep(parlist,krylov,secant)], with user-defined objects. *)
Definition NewtonKrylovStep_ctor_user (parlist : PL)
    (krylov secant : option ref) : M unit :=
  modify (set_this (λ t,
    mkNewtonKrylovStep Step_new secant krylov KRYLOV_USERDEFINED
      SECANT_USERDEFINED None 0 0 0 false));;
  (* Parse ParameterList *)
  let Glist := sublist parlist "General" in
  modify (set_this (with_useSecantPrecond_
    (get_bool (sublist Glist "Secant") "Use as Preconditioner" false)));;
  modify (set_this (with_verbosity_ (get_int Glist "Print Verbosity" 0)));;
  (* Initialize secant object *)
  m ← get;
  (if useSecantPrecond_ (this m) && bool_decide (secant_ (this m) = None) then
     modify (set_this (with_esec_ (StringToESecant
       (get_string (sublist Glist "Secant") "Type" "Limited-Memory BFGS"))));;
     sc ← SecantFactory parlist; modify (set_this (with_secant_ (Some sc)))
   else mret tt);;
  (* Initialize Krylov object *)
  m ← get;
  if bool_decide (krylov_ (this m) = None) then
    modify (set_this (with_ekv_ (StringToEKrylov
      (get_string (sublist Glist "Krylov") "Type" "Conjugate Gradients"))));;
    k ← KrylovFactory parlist; modify (set_this (with_krylov_ (Some k)))
  else mret tt.

(** *** initialize *)

Definition to_base (m : machine) : BaseView Real V Obj :=
  mkBaseView (state_ (this m)) (algo_state m) (heap m) (objectives m).

Definition of_base (b : BaseView Real V Obj) (m : machine) : machine :=
  mkMachine (with_state_ (bv_state b) (this m)) (bv_algo b) (bv_heap b)
            (bv_objectives b) (krylovs m) (secants m) (trace m).

(* Step<Real>::initialize(x,s,g,obj,bnd,algo_state) *)
Definition Step_initialize_base (x s g : loc) (obj : ref) (bnd : Bnd) : M unit :=
  λ m, match Step_initialize x s g obj bnd (to_base m) with
       | Some b => Some (tt, of_base b m)
       | None => None
       end.

Definition initialize (x s g : loc) (obj : ref) (bnd : Bnd) : M unit :=
  Step_initialize_base x s g obj bnd;;
  m ← get;
  if useSecantPrecond_ (this m) then
    l ← vec_clone g; modify (set_this (with_gp_ (Some l)))
  else mret tt.

(** *** compute *)

(** Lines 186-202 of [compute]: the operators are built and the Krylov
    solver is run. *)
Definition compute_run_Krylov (s x : loc) (obj : ref) (bnd : Bnd) : M unit :=
  m ← get;
  let step_state := state_ (this m) in
  (* Build Hessian and Preconditioner object *)
  let hessian := Some (HessianNK obj (iterateVec (algo_state m))) in
  let precond :=
    if useSecantPrecond_ (this m) then SecantOperator <$> secant_ (this m)
    else Some (PrecondNK obj (iterateVec (algo_state m))) in
  (* Run Krylov method *)
  modify (set_this (with_flagKrylov_ 0));;
  krylov ← deref (krylov_ (this m));
  A ← deref hessian;
  g ← deref (gradientVec step_state);
  P ← deref precond;
  Krylov_run krylov s A g P.

Definition compute (s x : loc) (obj : ref) (bnd : Bnd) : M unit :=
  compute_run_Krylov s x obj bnd;;
  (* Check Krylov flags *)
  m ← get;
  let step_state := state_ (this m) in
  (if (flagKrylov_ (this m) =? 2) && (iterKrylov_ (this m) <=? 1) then
     g ← deref (gradientVec step_state); vec_set_dual s g
   else mret tt);;
  vec_scale s R_minus_one.

(** *** update *)

Definition update (x s : loc) (obj : ref) (bnd : Bnd) : M unit :=
  let tol := sqrt_ROL_EPSILON in
  m ← get;
  let step_state := state_ (this m) in
  (* Update iterate *)
  modify (set_algo_state (λ a, with_iter (iter a + 1) a));;
  vec_axpy x R_one s;;
  d ← deref (descentVec step_state);
  vec_set d s;;
  n ← vec_norm s;
  modify (set_algo_state (with_snorm n));;
  (* Compute new gradient *)
  (if useSecantPrecond_ (this m) then
     gp ← deref (gp_ (this m)); g ← deref (gradientVec step_state);
     vec_set gp g
   else mret tt);;
  m1 ← get;
  Objective_update obj x true (iter (algo_state m1));;
  '(val, tol) ← Objective_value obj x tol;
  modify (set_algo_state (with_value val));;
  g ← deref (gradientVec step_state);
  tol ← Objective_gradient obj g x tol;
  modify (set_algo_state (λ a, with_ngrad (ngrad a + 1) a));;
  (* Update Secant Information *)
  (if useSecantPrecond_ (this m) then
     sc ← deref (secant_ (this m));
     g ← deref (gradientVec step_state); gp ← deref (gp_ (this m));
     B ← load_secant sc;
     xv ← load x; gv ← load g; gpv ← load gp; sv ← load s;
     m2 ← get;
     modify (set_secants <[sc:=secant_updateStorage B xv gv gpv sv
                                 (snorm (algo_state m2)) (iter (algo_state m2) + 1)]>);;
     emit (EvSecantUpdate sc)
   else mret tt);;
  (* Update algorithm state *)
  m3 ← get;
  it ← deref (iterateVec (algo_state m3));
  vec_set it x;;
  g ← deref (gradientVec step_state);
  gn ← vec_norm g;
  modify (set_algo_state (with_gnorm gn)).

(** *** Status text *)

(* std::string(n,c) *)
Fixpoint string_of_char (n : nat) (c : ascii) : string :=
  match n with
  | O => EmptyString
  | Datatypes.S n' => String c (string_of_char n' c)
  end.

Definition nl : string := String "010" EmptyString.

(* hist << std::setw(n) << std::left << t: padded on the right up to
   width n, never cut *)
Definition setw_left (n : nat) (t : string) : string :=
  t +:+ string_of_char (n - String.length t) " ".

Definition printHeader (t : step) : string :=
  (if 0 <? verbosity_ t then
     string_of_char 109 "-" +:+ nl +:+
     EDescentToString_DESCENT_NEWTONKRYLOV +:+
     " status output definitions" +:+ nl +:+ nl +:+
     "  iter     - Number of iterates (steps taken) " +:+ nl +:+
     "  value    - Objective function value " +:+ nl +:+
     "  gnorm    - Norm of the gradient" +:+ nl +:+
     "  snorm    - Norm of the step (update to optimization vector)" +:+ nl +:+
     "  #fval    - Cumulative number of times the objective function was evaluated" +:+ nl +:+
     "  #grad    - Number of times the gradient was computed" +:+ nl +:+
     "  iterCG   - Number of Krylov iterations used to compute search direction" +:+ nl +:+
     "  flagCG   - Krylov solver flag" +:+ nl +:+
     string_of_char 109 "-" +:+ nl
   else EmptyString) +:+
  "  " +:+
  setw_left 6 "iter" +:+
  setw_left 15 "value" +:+
  setw_left 15 "gnorm" +:+
  setw_left 15 "snorm" +:+
  setw_left 10 "#fval" +:+
  setw_left 10 "#grad" +:+
  setw_left 10 "iterCG" +:+
  setw_left 10 "flagCG" +:+
  nl.

Definition printName (t : step) : string :=
  nl +:+ EDescentToString_DESCENT_NEWTONKRYLOV +:+
  " using " +:+ EKrylovToString (ekv_ t) +:+
  (if useSecantPrecond_ t then
     " with " +:+ ESecantToString (esec_ t) +:+ " preconditioning"
   else EmptyString) +:+
  nl.

Definition print (t : step) (algo_state : AlgorithmState Real)
    (print_header : bool) : string :=
  (if iter algo_state =? 0 then printName t else EmptyString) +:+
  (if print_header then printHeader t else EmptyString) +:+
  (if iter algo_state =? 0 then
     "  " +:+
     setw_left 6 (pretty (iter algo_state)) +:+
     setw_left 15 (show_Real (value algo_state)) +:+
     setw_left 15 (show_Real (gnorm algo_state)) +:+
     nl
   else
     "  " +:+
     setw_left 6 (pretty (iter algo_state)) +:+
     setw_left 15 (show_Real (value algo_state)) +:+
     setw_left 15 (show_Real (gnorm algo_state)) +:+
     setw_left 15 (show_Real (snorm algo_state)) +:+
     setw_left 10 (pretty (nfval algo_state)) +:+
     setw_left 10 (pretty (ngrad algo_state)) +:+
     setw_left 10 (pretty (iterKrylov_ t)) +:+
     setw_left 10 (pretty (flagKrylov_ t)) +:+
     nl).

(** *** Drivers: sequences of calls on one step object *)

Inductive Call :=
| CallInitialize (x s g : loc) (obj : ref) (bnd : Bnd)
| CallCompute (s x : loc) (obj : ref) (bnd : Bnd)
| CallUpdate (x s : loc) (obj : ref) (bnd : Bnd).

Definition call (c : Call) : M unit :=
  match c with
  | CallInitialize x s g obj bnd => initialize x s g obj bnd
  | CallCompute s x obj bnd => compute s x obj bnd
  | CallUpdate x s obj bnd => update x s obj bnd
  end.

Fixpoint calls (cs : list Call) : M unit :=
  match cs with
  | [] => mret tt
  | c :: cs' => call c;; calls cs'
  end.

(** Either constructor: [None] is [NewtonKrylovStep(parlist)], [Some (k,sc)]
    is [NewtonKrylovStep(parlist,k,sc)]. *)
Definition construct (parlist : PL) (user : option (option ref * option ref))
    : M unit :=
  match user with
  | None => NewtonKrylovStep_ctor parlist
  | Some (krylov, secant) => NewtonKrylovStep_ctor_user parlist krylov secant
  end.

Definition is_update (c : Call) : bool :=
  match c with CallUpdate _ _ _ _ => true | _ => false end.
Definition is_compute (c : Call) : bool :=
  match c with CallCompute _ _ _ _ => true | _ => false end.

(** ** Notions used by the statements *)

(** The direction, the iteration count and the flag that the Krylov solver
    hands back when [compute] is called in [m]. *)
Definition Krylov_result (s x : loc) (obj : ref) (bnd : Bnd) (m : machine)
    : option (V * Z * Z) :=
  '(_, m1) ← compute_run_Krylov s x obj bnd m;
  d ← heap m1 !! s;
  Some (d, iterKrylov_ (this m1), flagKrylov_ (this m1)).

(** [c] run in [m] returns, and [Q] holds of what it returns. *)
Definition wp {A} (c : M A) (m : machine) (Q : A → machine → Prop) : Prop :=
  ∃ a m1, c m = Some (a, m1) ∧ Q a m1.

(** If [c] run in [m] returns, [Q] holds of what it returns. *)
Definition post {A} (c : M A) (m : machine) (Q : A → machine → Prop) : Prop :=
  ∀ a m1, c m = Some (a, m1) → Q a m1.

(** What a run of the body of [Krylov::run] leaves untouched. *)
Definition same_frame (m m1 : machine) : Prop :=
  this m1 = this m ∧ algo_state m1 = algo_state m ∧ heap m1 = heap m ∧
  krylovs m1 = krylovs m ∧ secants m1 = secants m.

Definition allocated (m : machine) (l : loc) : Prop := is_Some (heap m !! l).

(** Every pointer that [compute] and [update] dereference is valid: the
    state of a step that was constructed and initialised. *)
Definition ready (m : machine) : Prop :=
  (∃ g, gradientVec (state_ (this m)) = Some g ∧ allocated m g) ∧
  (∃ d, descentVec (state_ (this m)) = Some d ∧ allocated m d) ∧
  (∃ it, iterateVec (algo_state m) = Some it ∧ allocated m it) ∧
  (∃ k, krylov_ (this m) = Some k ∧ is_Some (krylovs m !! k)) ∧
  (useSecantPrecond_ (this m) = true →
     (∃ gp, gp_ (this m) = Some gp ∧ allocated m gp) ∧
     (∃ sc, secant_ (this m) = Some sc ∧ is_Some (secants m !! sc))).

(** [l] is one of the vectors the step object owns. *)
Definition private_vec (m : machine) (l : loc) : Prop :=
  gradientVec (state_ (this m)) = Some l ∨
  descentVec (state_ (this m)) = Some l ∨
  gp_ (this m) = Some l.

(** The arguments of a [compute] or [update] call name existing objects. *)
Definition call_ok (m : machine) (c : Call) : Prop :=
  match c with
  | CallInitialize _ _ _ _ _ => False
  | CallCompute s x obj bnd => allocated m s ∧ is_Some (objectives m !! obj)
  | CallUpdate x s obj bnd =>
      allocated m x ∧ allocated m s ∧ is_Some (objectives m !! obj)
  end.

(** [m'] has the pointers and the allocated objects of [m]. *)
Definition same_shape (m m' : machine) : Prop :=
  state_ (this m') = state_ (this m) ∧ secant_ (this m') = secant_ (this m) ∧
  krylov_ (this m') = krylov_ (this m) ∧ gp_ (this m') = gp_ (this m) ∧
  useSecantPrecond_ (this m') = useSecantPrecond_ (this m) ∧
  iterateVec (algo_state m') = iterateVec (algo_state m) ∧
  dom (heap m') = dom (heap m) ∧ dom (objectives m') = dom (objectives m) ∧
  dom (krylovs m') = dom (krylovs m) ∧ dom (secants m') = dom (secants m).

(** [m'] continues the trace of [m] with events that all satisfy [P]. *)
Definition extends (P : Event V → bool) (m m' : machine) : Prop :=
  ∃ evs, trace m' = evs ++ trace m ∧ forallb P evs = true.

Definition secant_event (e : Event V) : bool :=
  match e with
  | EvSecantFactory _ | EvSecantApply _ | EvSecantApplyInverse _
  | EvSecantUpdate _ => true
  | _ => false
  end.

Definition clone_event (e : Event V) : bool :=
  match e with EvClone _ _ => true | _ => false end.

(** No secant object is built, read or updated, and no vector is cloned. *)
Definition secant_free (e : Event V) : bool :=
  negb (secant_event e) && negb (clone_event e).

(** No Krylov object is built, and only [k] is run. *)
Definition only_krylov (k : ref) (e : Event V) : bool :=
  match e with
  | EvKrylovFactory _ => false
  | EvKrylovRun k' => bool_decide (k' = k)
  | _ => true
  end.

(** No secant object is built, and only [sc] is read or updated. *)
Definition only_secant (sc : ref) (e : Event V) : bool :=
  match e with
  | EvSecantFactory _ => false
  | EvSecantApply sc' | EvSecantApplyInverse sc' | EvSecantUpdate sc' =>
      bool_decide (sc' = sc)
  | _ => true
  end.

Definition krylov_run_event (k : ref) (e : Event V) : bool :=
  match e with EvKrylovRun k' => bool_decide (k' = k) | _ => false end.

Definition value_event (obj : ref) (e : Event V) : bool :=
  match e with EvObjValue o _ => bool_decide (o = obj) | _ => false end.

Definition run_event (e : Event V) : bool :=
  match e with EvKrylovRun _ => true | _ => false end.

(** How many events of a trace satisfy [P]. *)
Definition count (P : Event V → bool) (evs : list (Event V)) : nat :=
  List.length (List.filter P evs).

(** How many calls of a sequence are calls of [update], of [compute]. *)
Definition updates (cs : list Call) : nat := List.length (List.filter is_update cs).
Definition computes (cs : list Call) : nat := List.length (List.filter is_compute cs).

(** The events a run of [Krylov::run] on the operators [A] and [P] can
    leave: calls of the objective and of a secant operator among the two. *)
Definition is_secant_op (sc : ref) (op : LinearOperator) : bool :=
  match op with SecantOperator sc' => bool_decide (sc' = sc) | _ => false end.

Definition operator_event (A P : LinearOperator) (e : Event V) : bool :=
  match e with
  | EvObjHessVec _ _ | EvObjPrecond _ _ => true
  | EvSecantApply sc | EvSecantApplyInverse sc =>
      is_secant_op sc A || is_secant_op sc P
  | _ => false
  end.

Definition solver_step (A P : LinearOperator) (m m1 : machine) : Prop :=
  same_frame m m1 ∧ dom (objectives m1) = dom (objectives m) ∧
  extends (operator_event A P) m m1.

(** The operator can be applied: what it points to exists. *)
Definition op_ok (m : machine) (op : LinearOperator) : Prop :=
  match op with
  | HessianNK obj_ x_ | PrecondNK obj_ x_ =>
      is_Some (objectives m !! obj_) ∧ ∃ x, x_ = Some x ∧ allocated m x
  | SecantOperator sc => is_Some (secants m !! sc)
  end.

(** The preconditioner [compute] selects in [m]. *)
Definition precond_of (m : machine) (obj : ref) : option LinearOperator :=
  if useSecantPrecond_ (this m) then SecantOperator <$> secant_ (this m)
  else Some (PrecondNK obj (iterateVec (algo_state m))).

(** The events of one call of [update] at the point [xv]. *)
Definition update_events (m : machine) (obj : ref) (xv : V) : list (Event V) :=
  (if useSecantPrecond_ (this m)
   then from_option (λ sc, [EvSecantUpdate sc]) [] (secant_ (this m))
   else []) ++
  [EvObjGradient obj xv; EvObjValue obj xv;
   EvObjUpdate obj xv (iter (algo_state m) + 1)].

(** The events [initialize], [compute] and [update] can leave on a step
    object with the members [t]: no factory call, runs of [krylov_] only,
    and the secant object and the clone only under [useSecantPrecond_]. *)
Definition method_event (t : step) (e : Event V) : bool :=
  match e with
  | EvKrylovFactory _ | EvSecantFactory _ => false
  | EvKrylovRun k => bool_decide (krylov_ t = Some k)
  | EvSecantApply sc | EvSecantApplyInverse sc | EvSecantUpdate sc =>
      useSecantPrecond_ t && bool_decide (secant_ t = Some sc)
  | EvClone _ _ => useSecantPrecond_ t
  | _ => true
  end.

(** The events a constructor can leave: a factory call for each object
    that the caller did not supply, the secant one only under the option
    [u]. *)
Definition ctor_event (u : bool) (user : option (option ref * option ref))
    (e : Event V) : bool :=
  match e with
  | EvKrylovFactory _ =>
      match user with Some (Some _, _) => false | _ => true end
  | EvSecantFactory _ =>
      u && match user with Some (_, Some _) => false | _ => true end
  | _ => false
  end.

(** The members that no method assigns after construction. *)
Definition same_members (m m' : machine) : Prop :=
  krylov_ (this m') = krylov_ (this m) ∧ secant_ (this m') = secant_ (this m) ∧
  useSecantPrecond_ (this m') = useSecantPrecond_ (this m).

(** What [n] runs of the Krylov solver inside method calls do to the step
    object and to the trace. *)
Definition method_step (n : nat) (m m' : machine) : Prop :=
  same_members m m' ∧
  (useSecantPrecond_ (this m) = false →
     gp_ (this m') = gp_ (this m) ∧ secants m' = secants m) ∧
  ∃ evs, trace m' = evs ++ trace m ∧
         forallb (method_event (this m)) evs = true ∧
         count run_event evs = n.

(** [f] occurs in [out]. *)
Fixpoint occurs (f out : string) : bool :=
  String.prefix f out ||
  match out with
  | EmptyString => false
  | String _ out' => occurs f out'
  end.

(** The eight fields of the status line, as [print] formats them. *)
Definition fields (t : step) (a : AlgorithmState Real) : list string :=
  [ pretty (iter a); show_Real (value a); show_Real (gnorm a);
    show_Real (snorm a); pretty (nfval a); pretty (ngrad a);
    pretty (iterKrylov_ t); pretty (flagKrylov_ t) ].

Definition all_occur (fs : list string) (out : string) : bool :=
  forallb (λ f, occurs f out) fs.

(** The three fields of the status line of iteration 0. *)
Definition fields0 (a : AlgorithmState Real) : list string :=
  [ pretty (iter a); show_Real (value a); show_Real (gnorm a) ].

(** The machine [m] with the content of the vector at [x] replaced. *)
Definition poke (x : loc) (v : V) (m : machine) : machine :=
  set_heap <[x:=v]> m.

(** [c] neither reads nor writes the vector at [x]: replacing its content
    beforehand or afterwards is the same. *)
Definition framed {A} (x : loc) (v : V) (c : M A) : Prop :=
  ∀ m, c (poke x v m) = (λ '(a, m'), (a, poke x v m')) <$> c m.

(** The operator is not bound to the vector at [x]. *)
Definition op_away (x : loc) (op : LinearOperator) : Prop :=
  match op with
  | HessianNK _ x_ | PrecondNK _ x_ => x_ ≠ Some x
  | SecantOperator _ => True
  end.

(** ** Notions used by the further properties *)

(** What [update] needs to return: the vectors and the objective it is
    called on exist, the three vectors it reaches through pointers exist,
    and so do [gp_] and the secant object when the secant preconditioner is
    on. *)
Definition update_ok (m : machine) (x s : loc) (obj : ref) : Prop :=
  allocated m x ∧ allocated m s ∧ is_Some (objectives m !! obj) ∧
  (∃ g, gradientVec (state_ (this m)) = Some g ∧ allocated m g) ∧
  (∃ d, descentVec (state_ (this m)) = Some d ∧ allocated m d) ∧
  (∃ it, iterateVec (algo_state m) = Some it ∧ allocated m it) ∧
  (useSecantPrecond_ (this m) = true →
     (∃ gp, gp_ (this m) = Some gp ∧ allocated m gp) ∧
     (∃ sc, secant_ (this m) = Some sc ∧ is_Some (secants m !! sc))).

(** The arguments [x] and [s], the gradient [g] and the descent vector [d]
    of the step state and, when there is one, the workspace [gp_] are five
    different vectors, and the iterate [it] of the algorithm state is none
    of them but possibly [x]. *)
Definition separated (m : machine) (x s g d it : loc) : Prop :=
  gradientVec (state_ (this m)) = Some g ∧
  descentVec (state_ (this m)) = Some d ∧
  iterateVec (algo_state m) = Some it ∧
  x ≠ s ∧ x ≠ g ∧ x ≠ d ∧ s ≠ g ∧ s ≠ d ∧ g ≠ d ∧
  it ≠ s ∧ it ≠ g ∧ it ≠ d ∧
  (∀ gp, gp_ (this m) = Some gp →
     gp ≠ x ∧ gp ≠ s ∧ gp ≠ g ∧ gp ≠ d ∧ gp ≠ it).

(** The widths of the eight columns, and the three of iteration 0. *)
Definition widths : list nat := [6; 15; 15; 15; 10; 10; 10; 10]%nat.
Definition widths0 : list nat := [6; 15; 15]%nat.

(** Each field is no longer than its column. *)
Definition fit (fs : list string) (ws : list nat) : Prop :=
  Forall2 (λ f w, (String.length f ≤ w)%nat) fs ws.

(** The column titles, the last line of [printHeader]. *)
Definition column_titles : string :=
  "  " +:+
  setw_left 6 "iter" +:+
  setw_left 15 "value" +:+
  setw_left 15 "gnorm" +:+
  setw_left 15 "snorm" +:+
  setw_left 10 "#fval" +:+
  setw_left 10 "#grad" +:+
  setw_left 10 "iterCG" +:+
  setw_left 10 "flagCG" +:+
  nl.

(** The parameter-list entries the constructors read. *)
Definition use_as_preconditioner (parlist : PL) : bool :=
  get_bool (sublist (sublist parlist "General") "Secant")
    "Use as Preconditioner" false.

Definition krylov_supplied (user : option (option ref * option ref)) : bool :=
  match user with Some (Some _, _) => true | _ => false end.

Definition secant_supplied (user : option (option ref * option ref)) : bool :=
  match user with Some (_, Some _) => true | _ => false end.

(** What the iterate of the algorithm state holds. *)
Definition iterate_of (m : machine) : option V :=
  it ← iterateVec (algo_state m); heap m !! it.

(** The calls a solve can make for the step object [t] on the objective
    [obj], with [point] what the iterate holds: the Hessian of [obj] at that
    point and, as the preconditioner, either [obj]'s own at that point or
    the secant object of [t]. *)
Definition solve_event (t : step) (obj : ref) (point : option V) (e : Event V)
    : Prop :=
  match e with
  | EvObjHessVec o v => o = obj ∧ point = Some v
  | EvObjPrecond o v => o = obj ∧ point = Some v ∧ useSecantPrecond_ t = false
  | EvSecantApply sc | EvSecantApplyInverse sc =>
      useSecantPrecond_ t = true ∧ secant_ t = Some sc
  | _ => False
  end.

(** The titles of the eight columns. *)
Definition titles : list string :=
  ["iter"; "value"; "gnorm"; "snorm"; "#fval"; "#grad"; "iterCG"; "flagCG"].

(** The columns at which cells of the widths [ws] start, the first one at
    column [c]. *)
Fixpoint starts (c : nat) (ws : list nat) : list nat :=
  match ws with
  | [] => []
  | w :: ws' => c :: starts (c + w) ws'
  end.

(** [f] stands in [out] at column [c]. *)
Definition at_column (out : string) (c : nat) (f : string) : Prop :=
  substring c (String.length f) out = f.

(** The cells [fs], each written with [setw] and [left] in its width, and
    then [tail]. *)
Fixpoint row (ws : list nat) (fs : list string) (tail : string) : string :=
  match ws, fs with
  | w :: ws', f :: fs' => setw_left w f +:+ row ws' fs' tail
  | _, _ => tail
  end.

End Step.

(** ** A small instance of every interface

    Integers for [Real], lists of integers for vectors, the objective
    [f(x) = |x|^2 / 2] (gradient [x], Hessian the identity), a Krylov solver
    that calls both operators once and then hands back either the
    preconditioned right-hand side (an exact solve for the identity) or a
    canned reply, and a secant object that records its updates. *)

Module Sample.

#[export] Instance Z_RealOps : RealOps Z :=
  {| R_one := 1; R_minus_one := -1; sqrt_ROL_EPSILON := 0; show_Real := pretty |}.

Definition dot (x y : list Z) : Z := foldr Z.add 0 (zip_with Z.mul x y).

#[export] Instance list_Vector : Vector Z (list Z) :=
  {| v_scale a y := Z.mul a <$> y;
     v_axpy a x y := zip_with (λ yi xi, yi + a * xi) y x;
     v_dual y := y;
     v_norm y := Z.sqrt (dot y y);
     v_clone y := (λ _, 0) <$> y |}.

(* the state of the objective counts the calls of update *)
#[export] Instance quadratic : Objective Z (list Z) nat :=
  {| obj_update o x flag it := Datatypes.S o;
     obj_value o x tol := (o, dot x x / 2, tol);
     obj_gradient o g x tol := (o, x, tol);
     obj_hessVec o Hv v x tol := (o, v, tol);
     obj_precond o Pv v x tol := (o, v, tol) |}.

Record Canned := mkCanned { reply : option (list Z * Z * Z); runs : nat }.

#[export] Instance canned_Krylov : Krylov Z (list Z) Canned :=
  {| krylov_run Kst x b it fl :=
       KCall OpM ApplyInverse x b 0 (λ z tol,
       KCall OpA Apply x z tol (λ Az tol',
       let Kst' := mkCanned (reply Kst) (Datatypes.S (runs Kst)) in
       match reply Kst with
       | Some (d, it', fl') => KRet (Kst', d, it', fl')
       | None => KRet (Kst', z, 1, 0)
       end)) |}.

#[export] Instance pairs_Secant : Secant Z (list Z) (list (list Z * list Z)) :=
  {| secant_updateStorage B x g gp s sn it := (s, v_axpy (-1) gp g) :: B;
     secant_apply B Hv v tol := (v, tol);
     secant_applyInverse B Hv v tol := (v, tol) |}.

Inductive PValue := PBool (b : bool) | PInt (z : Z) | PStr (s : string).

Inductive EKrylov := KRYLOV_CG | KRYLOV_CR | KRYLOV_USER | KRYLOV_LAST.

Inductive ESecant :=
| SECANT_LBFGS | SECANT_LDFP | SECANT_LSR1 | SECANT_BB | SECANT_USER | SECANT_LAST.

(* a parameter list: entries named by their path of sublists *)
Definition PList := list (list string * PValue).

Definition pl_sublist (pl : PList) (n : string) : PList :=
  omap (λ '(path, v), match path with
                      | h :: t => if decide (h = n) then Some (t, v) else None
                      | [] => None
                      end) pl.

Fixpoint pl_find (pl : PList) (n : string) : option PValue :=
  match pl with
  | [] => None
  | (path, v) :: pl' => if decide (path = [n]) then Some v else pl_find pl' n
  end.

Definition pl_string (pl : PList) (n d : string) : string :=
  match pl_find pl n with Some (PStr s) => s | _ => d end.

Definition to_EKrylov (s : string) : EKrylov :=
  if decide (s = "Conjugate Gradients") then KRYLOV_CG
  else if decide (s = "Conjugate Residuals") then KRYLOV_CR
  else if decide (s = "User Defined") then KRYLOV_USER else KRYLOV_LAST.

Definition to_ESecant (s : string) : ESecant :=
  if decide (s = "Limited-Memory BFGS") then SECANT_LBFGS
  else if decide (s = "Limited-Memory DFP") then SECANT_LDFP
  else if decide (s = "Limited-Memory SR1") then SECANT_LSR1
  else if decide (s = "Barzilai-Borwein") then SECANT_BB
  else if decide (s = "User Defined") then SECANT_USER else SECANT_LAST.

#[export] Instance sample_Config :
    Config Z (list Z) PList EKrylov ESecant Canned (list (list Z * list Z)) :=
  {| sublist := pl_sublist;
     get_bool pl n d := match pl_find pl n with Some (PBool b) => b | _ => d end;
     get_int pl n d := match pl_find pl n with Some (PInt z) => z | _ => d end;
     get_string := pl_string;
     StringToEKrylov := to_EKrylov;
     StringToESecant := to_ESecant;
     EKrylovToString e :=
       match e with
       | KRYLOV_CG => "Conjugate Gradients" | KRYLOV_CR => "Conjugate Residuals"
       | KRYLOV_USER => "User Defined" | KRYLOV_LAST => "Last Type (Dummy)"
       end;
     ESecantToString e :=
       match e with
       | SECANT_LBFGS => "Limited-Memory BFGS" | SECANT_LDFP => "Limited-Memory DFP"
       | SECANT_LSR1 => "Limited-Memory SR1" | SECANT_BB => "Barzilai-Borwein"
       | SECANT_USER => "User Defined" | SECANT_LAST => "Last Type (Dummy)"
       end;
     KRYLOV_USERDEFINED := KRYLOV_USER;
     SECANT_USERDEFINED := SECANT_USER;
     EDescentToString_DESCENT_NEWTONKRYLOV := "Newton-Krylov";
     KrylovFactory_new pl :=
       match to_EKrylov (pl_string (pl_sublist (pl_sublist pl "General") "Krylov")
                           "Type" "Conjugate Gradients") with
       | KRYLOV_CG | KRYLOV_CR => Some (mkCanned None 0)
       | _ => None
       end;
     SecantFactory_new pl := Some [];
     LinearOperator_applyInverse Hv v tol := (v, tol) |}.

(* a base class that clones s and g into the step state and evaluates the
   objective and its gradient at x *)
Definition base_initialize (x s g : loc) (obj : ref) (bnd : unit)
    (b : BaseView Z (list Z) nat) : option (BaseView Z (list Z) nat) :=
  sv ← bv_heap b !! s; gv ← bv_heap b !! g; xv ← bv_heap b !! x;
  o ← bv_objectives b !! obj;
  let d := fresh (dom (bv_heap b)) in
  let h1 := <[d := v_clone sv]> (bv_heap b) in
  let gl := fresh (dom h1) in
  let a := bv_algo b in
  Some (mkBaseView (mkStepState (Some gl) (Some d))
          (mkAlgorithmState (iter a) (dot xv xv / 2) (v_norm xv) (snorm a)
             (nfval a + 1) (ngrad a + 1) (iterateVec a))
          (<[gl := xv]> h1)
          (<[obj := Datatypes.S o]> (bv_objectives b))).

#[export] Instance sample_StepBase : StepBase Z (list Z) nat unit :=
  {| Step_new := mkStepState None None; Step_initialize := base_initialize |}.

Abbreviation machine :=
  (Machine Z (list Z) nat Canned (list (list Z * list Z)) EKrylov ESecant).

(** Before construction: x at 1, s at 2, g at 3, the iterate of the
    algorithm state at 4; objective 1; the Krylov object [Kst] at 1 and an
    empty secant object at 1, for the constructor that takes them. *)
Definition start (x0 : list Z) (Kst : Canned) : machine :=
  mkMachine
    (mkNewtonKrylovStep (mkStepState None None) None None
       KRYLOV_LAST SECANT_LAST None 0 0 0 false)
    (mkAlgorithmState 0 0 0 0 0 0 (Some 4%positive))
    (list_to_map [(1%positive, x0); (2%positive, x0);
                  (3%positive, x0); (4%positive, x0)])
    {[ 1%positive := 0%nat ]} {[ 1%positive := Kst ]} {[ 1%positive := [] ]} [].

(** A constructed and initialised step: gradient at 5, descent at 6, the
    previous gradient at 7 when the secant preconditioner is on. *)
Definition initialised (secant : bool) (x0 s0 g0 : list Z) (Kst : Canned) : machine :=
  mkMachine
    (mkNewtonKrylovStep (mkStepState (Some 5%positive) (Some 6%positive))
       (if secant then Some 1%positive else None) (Some 1%positive)
       KRYLOV_USER SECANT_USER (if secant then Some 7%positive else None)
       0 0 0 secant)
    (mkAlgorithmState 0 0 0 0 0 0 (Some 4%positive))
    (list_to_map [(1%positive, x0); (2%positive, s0); (4%positive, x0);
                  (5%positive, g0); (6%positive, s0); (7%positive, g0)])
    {[ 1%positive := 0%nat ]} {[ 1%positive := Kst ]} {[ 1%positive := [] ]} [].

Definition exact : Canned := mkCanned None 0.
Definition canned (d : list Z) (it fl : Z) : Canned := mkCanned (Some (d, it, fl)) 0.

Definition no_secant : PList := [].
Definition use_secant : PList :=
  [(["General"; "Secant"; "Use as Preconditioner"], PBool true)].

(** A step and an algorithm state whose eight fields are all different. *)
Definition shown_step : NewtonKrylovStep EKrylov ESecant :=
  mkNewtonKrylovStep (mkStepState None None) None None KRYLOV_CG SECANT_LBFGS
    None 6 7 0 false.

Definition shown_state (it : Z) : AlgorithmState Z :=
  mkAlgorithmState it 1 2 3 4 5 None.

End Sample.

(** * Properties *)

Section Properties.
Context {Real V Obj K S PL EKrylov ESecant Bnd : Type}.
Context `{!RealOps Real, !Vector Real V, !Objective Real V Obj,
          !Krylov Real V K, !Secant Real V S,
          !Config Real V PL EKrylov ESecant K S, !StepBase Real V Obj Bnd}.

Abbreviation machine := (Machine Real V Obj K S EKrylov ESecant).
Abbreviation step := (NewtonKrylovStep EKrylov ESecant).
Abbreviation prog := (M (Real:=Real) (V:=V) (Obj:=Obj) (K:=K) (S:=S)
                        (EKrylov:=EKrylov) (ESecant:=ESecant)).

(** ** Rules for running programs *)

Lemma bind_run {A B} (c : prog A) (f : A → prog B) (m m1 : machine) a :
  c m = Some (a, m1) → (c ≫= f) m = f a m1.
Proof. unfold mbind, M_bind. by intros ->. Qed.

Lemma wp_bind {A B} (c : prog A) (f : A → prog B) m Q :
  wp c m (λ a m1, wp (f a) m1 Q) → wp (c ≫= f) m Q.
Proof.
  intros (a & m1 & Hc & b & m2 & Hf & HQ). exists b, m2. split; [|done].
  by rewrite (bind_run _ _ _ _ _ Hc).
Qed.

Lemma wp_ret {A} (a : A) m (Q : A → machine → Prop) : Q a m → wp (mret a) m Q.
Proof. intros. by exists a, m. Qed.

Lemma wp_get m (Q : machine → machine → Prop) : Q m m → wp get m Q.
Proof. intros. by exists m, m. Qed.

Lemma wp_modify f m (Q : unit → machine → Prop) : Q tt (f m) → wp (modify f) m Q.
Proof. intros. by exists tt, (f m). Qed.

Lemma wp_lift {A} (o : option A) a m (Q : A → machine → Prop) :
  o = Some a → Q a m → wp (lift o) m Q.
Proof. intros -> ?. by exists a, m. Qed.

Lemma wp_mono {A} (c : prog A) m (Q Q' : A → machine → Prop) :
  wp c m Q → (∀ a m1, Q a m1 → Q' a m1) → wp c m Q'.
Proof. intros (a & m1 & ? & ?) HQ. exists a, m1. eauto. Qed.

Lemma wp_unit (c : prog unit) m (Q : machine → Prop) :
  wp c m (λ _ m', Q m') → ∃ m', c m = Some (tt, m') ∧ Q m'.
Proof. intros ([] & m' & ? & ?). eauto. Qed.

Lemma wp_load l (m : machine) (Q : V → machine → Prop) :
  is_Some (heap m !! l) → (∀ v, heap m !! l = Some v → Q v m) → wp (load l) m Q.
Proof.
  intros [v Hv] HQ. unfold load. apply wp_bind, wp_get. eapply wp_lift; eauto.
Qed.

Lemma wp_load_obj obj (m : machine) (Q : Obj → machine → Prop) :
  is_Some (objectives m !! obj) →
  (∀ o, objectives m !! obj = Some o → Q o m) → wp (load_obj obj) m Q.
Proof.
  intros [o Ho] HQ. unfold load_obj. apply wp_bind, wp_get.
  eapply wp_lift; eauto.
Qed.

Lemma wp_load_secant sc (m : machine) (Q : S → machine → Prop) :
  is_Some (secants m !! sc) →
  (∀ B, secants m !! sc = Some B → Q B m) → wp (load_secant sc) m Q.
Proof.
  intros [B HB] HQ. unfold load_secant. apply wp_bind, wp_get.
  eapply wp_lift; eauto.
Qed.

Lemma wp_load_krylov k (m : machine) (Q : K → machine → Prop) :
  is_Some (krylovs m !! k) →
  (∀ Kst, krylovs m !! k = Some Kst → Q Kst m) → wp (load_krylov k) m Q.
Proof.
  intros [Kst HK] HQ. unfold load_krylov. apply wp_bind, wp_get.
  eapply wp_lift; eauto.
Qed.

Lemma wp_deref {A} (p : option A) a (m : machine) (Q : A → machine → Prop) :
  p = Some a → Q a m → wp (deref p) m Q.
Proof. apply wp_lift. Qed.

Lemma post_bind {A B} (c : prog A) (f : A → prog B) m Q :
  post c m (λ a m1, post (f a) m1 Q) → post (c ≫= f) m Q.
Proof.
  intros Hc b m2. unfold mbind, M_bind.
  destruct (c m) as [[a m1]|] eqn:E; [|done]. intros Hf. by eapply Hc.
Qed.

Lemma post_ret {A} (a : A) m (Q : A → machine → Prop) : Q a m → post (mret a) m Q.
Proof. intros HQ a' m1 [= <- <-]. done. Qed.

Lemma post_get m (Q : machine → machine → Prop) : Q m m → post get m Q.
Proof. intros HQ a' m1 [= <- <-]. done. Qed.

Lemma post_modify f m (Q : unit → machine → Prop) : Q tt (f m) → post (modify f) m Q.
Proof. intros HQ a' m1 [= <- <-]. done. Qed.

Lemma post_lift {A} (o : option A) m (Q : A → machine → Prop) :
  (∀ a, o = Some a → Q a m) → post (lift o) m Q.
Proof. intros HQ a m1. unfold lift. destruct o; [|done]. intros [= <- <-]. eauto. Qed.

Lemma post_mono {A} (c : prog A) m (Q Q' : A → machine → Prop) :
  post c m Q → (∀ a m1, Q a m1 → Q' a m1) → post c m Q'.
Proof. intros Hc HQ a m1 ?. eauto. Qed.

Lemma post_wp {A} (c : prog A) (m : machine) (Q : A → machine → Prop) :
  post c m Q → wp c m (λ _ _, True) → wp c m Q.
Proof. intros Hp (a & m1 & Hc & _). exists a, m1. eauto. Qed.

(** One step of a run that must return; the side conditions are lookups of
    allocated objects. *)
Ltac alloc :=
  cbn; repeat (apply lookup_insert_is_Some'; right); assumption.

Ltac run_step :=
  lazymatch goal with
  | |- wp (mbind _ _) _ _ => apply wp_bind
  | |- wp (mret _) _ _ => apply wp_ret
  | |- wp get _ _ => apply wp_get
  | |- wp (modify _) _ _ => apply wp_modify
  | |- wp (emit _) _ _ => apply wp_modify
  | |- wp (store _ _) _ _ => apply wp_modify
  | |- wp (store_obj _ _) _ _ => apply wp_modify
  | |- wp (load _) _ _ => apply wp_load; [alloc | intros ? ?]
  | |- wp (load_obj _) _ _ => apply wp_load_obj; [alloc | intros ? ?]
  | |- wp (load_secant _) _ _ => apply wp_load_secant; [alloc | intros ? ?]
  | |- wp (load_krylov _) _ _ => apply wp_load_krylov; [alloc | intros ? ?]
  | |- wp (deref _) _ _ =>
      eapply wp_deref; [cbn; first [eassumption | reflexivity]|]
  | |- wp (let '(_, _) := ?p in _) _ _ => destruct p as [? ?] eqn:?
  | |- wp (if true then _ else _) _ _ => cbv iota
  | |- wp (if false then _ else _) _ _ => cbv iota
  | |- wp (if ?b then _ else _) _ _ =>
      match goal with H : b = _ |- _ => rewrite H end
  | |- wp (vec_set _ _) _ _ => unfold vec_set
  | |- wp (vec_set_dual _ _) _ _ => unfold vec_set_dual
  | |- wp (vec_scale _ _) _ _ => unfold vec_scale
  | |- wp (vec_axpy _ _ _) _ _ => unfold vec_axpy
  | |- wp (vec_norm _) _ _ => unfold vec_norm
  | |- wp (Objective_update _ _ _ _) _ _ => unfold Objective_update
  | |- wp (Objective_value _ _ _) _ _ => unfold Objective_value
  | |- wp (Objective_gradient _ _ _ _) _ _ => unfold Objective_gradient
  | |- wp (Objective_hessVec _ _ _ _ _) _ _ => unfold Objective_hessVec
  | |- wp (Objective_precond _ _ _ _ _) _ _ => unfold Objective_precond
  end.

(** One step of a run that is known to have returned. *)
Ltac post_go :=
  lazymatch goal with
  | |- post (mbind _ _) _ _ => apply post_bind
  | |- post (mret _) _ _ => apply post_ret
  | |- post get _ _ => apply post_get
  | |- post (modify _) _ _ => apply post_modify
  | |- post (emit _) _ _ => apply post_modify
  | |- post (store _ _) _ _ => apply post_modify
  | |- post (store_obj _ _) _ _ => apply post_modify
  | |- post (lift _) _ _ => apply post_lift; intros ? ?
  | |- post (deref _) _ _ => apply post_lift; intros ? ?
  | |- post (load _) _ _ => unfold load
  | |- post (load_obj _) _ _ => unfold load_obj
  | |- post (load_secant _) _ _ => unfold load_secant
  | |- post (load_krylov _) _ _ => unfold load_krylov
  | |- post (let '(_, _) := ?p in _) _ _ => destruct p as [? ?] eqn:?
  | |- post (if ?b then _ else _) _ _ => destruct b eqn:?
  | |- post (vec_set _ _) _ _ => unfold vec_set
  | |- post (vec_set_dual _ _) _ _ => unfold vec_set_dual
  | |- post (vec_scale _ _) _ _ => unfold vec_scale
  | |- post (vec_axpy _ _ _) _ _ => unfold vec_axpy
  | |- post (vec_norm _) _ _ => unfold vec_norm
  | |- post (vec_clone _) _ _ => unfold vec_clone
  | |- post (Objective_update _ _ _ _) _ _ => unfold Objective_update
  | |- post (Objective_value _ _ _) _ _ => unfold Objective_value
  | |- post (Objective_gradient _ _ _ _) _ _ => unfold Objective_gradient
  | |- post (Objective_hessVec _ _ _ _ _) _ _ => unfold Objective_hessVec
  | |- post (Objective_precond _ _ _ _ _) _ _ => unfold Objective_precond
  | |- post (KrylovFactory _) _ _ => unfold KrylovFactory
  | |- post (SecantFactory _) _ _ => unfold SecantFactory
  end.

Ltac is_some :=
  solve [eauto] ||
  (apply lookup_insert_is_Some'; first [by left | right; is_some]).

Ltac same_dom := rewrite ?dom_insert_lookup_L by is_some; try done.

(** ** Traces and shapes *)

Lemma same_frame_trans (m1 m2 m3 : machine) :
  same_frame m1 m2 → same_frame m2 m3 → same_frame m1 m3.
Proof. unfold same_frame. intros (?&?&?&?&?) (?&?&?&?&?). repeat split; congruence. Qed.

Lemma extends_refl P (m : machine) : extends P m m.
Proof. by exists []. Qed.

Lemma extends_trans P (m1 m2 m3 : machine) :
  extends P m1 m2 → extends P m2 m3 → extends P m1 m3.
Proof.
  intros (e1 & H1 & F1) (e2 & H2 & F2). exists (e2 ++ e1). split.
  - by rewrite H2, H1, app_assoc.
  - rewrite forallb_app. by rewrite F1, F2.
Qed.

Lemma forallb_impl (P Q : Event V → bool) evs :
  (∀ e, P e = true → Q e = true) → forallb P evs = true → forallb Q evs = true.
Proof.
  intros HPQ HF. apply forallb_forall. intros e He. apply HPQ.
  by eapply forallb_forall in HF.
Qed.

Lemma solver_step_refl A P (m : machine) : solver_step A P m m.
Proof. split_and!; [done..|apply extends_refl]. Qed.

Lemma solver_step_trans A P (m1 m2 m3 : machine) :
  solver_step A P m1 m2 → solver_step A P m2 m3 → solver_step A P m1 m3.
Proof.
  intros (F1 & D1 & E1) (F2 & D2 & E2). split_and!.
  - by eapply same_frame_trans.
  - congruence.
  - by eapply extends_trans.
Qed.

Lemma secant_op_event sc A P :
  SecantOperator sc = A ∨ SecantOperator sc = P →
  is_secant_op sc A || is_secant_op sc P = true.
Proof.
  intros [<- | <-]; cbn; rewrite bool_decide_eq_true_2 by done;
    [done | apply orb_true_r].
Qed.

(** ** The Krylov solver *)

Lemma operator_call_post A P w f Hv v tol (m : machine) :
  post (match f with
        | Apply => LinearOperator_apply (match w with OpA => A | OpM => P end) Hv v tol
        | ApplyInverse =>
            LinearOperator_applyInv (match w with OpA => A | OpM => P end) Hv v tol
        end) m (λ _ m1, solver_step A P m m1).
Proof.
  set (op := match w with OpA => A | OpM => P end).
  assert (op = A ∨ op = P) as Hop by (destruct w; auto).
  clearbody op.
  destruct f, op as [obj_ x_|obj_ x_|sc];
    cbn [LinearOperator_apply LinearOperator_applyInv];
    repeat post_go; try apply solver_step_refl.
  - split_and!; [done | apply dom_insert_lookup_L; eauto | by eexists [_]].
  - split_and!; [done.. | eexists [_]; split; [done|]; cbn; by rewrite secant_op_event].
  - split_and!; [done | apply dom_insert_lookup_L; eauto | by eexists [_]].
  - split_and!; [done.. | eexists [_]; split; [done|]; cbn; by rewrite secant_op_event].
Qed.

(** Whatever the body of [run] does, it leaves the step, the algorithm
    state, the vectors, and the solver and secant objects as they were. *)
Lemma run_prog_post {R} A P (p : KrylovProg Real V R) (m : machine) :
  post (run_prog A P p) m (λ _ m1, solver_step A P m m1).
Proof.
  revert m. induction p as [r|w f Hv v tol k IH]; intros m; cbn [run_prog].
  - apply post_ret, solver_step_refl.
  - apply post_bind. eapply post_mono; [apply operator_call_post|].
    intros [Hv' tol'] m1 Hm1. eapply post_mono; [apply IH|].
    intros r m2 Hm2. by eapply solver_step_trans.
Qed.

Lemma op_ok_step A P op (m m1 : machine) :
  solver_step A P m m1 → op_ok m op → op_ok m1 op.
Proof.
  intros ((_ & _ & Hh & _ & Hs) & Hd & _).
  destruct op; cbn; unfold allocated; rewrite ?Hh, ?Hs;
    rewrite <- ?(elem_of_dom (objectives m1)), ?Hd, ?elem_of_dom; done.
Qed.

Lemma operator_call_returns w f Hv v tol A P (m : machine) :
  op_ok m A → op_ok m P →
  wp (match f with
      | Apply => LinearOperator_apply (match w with OpA => A | OpM => P end) Hv v tol
      | ApplyInverse =>
          LinearOperator_applyInv (match w with OpA => A | OpM => P end) Hv v tol
      end) m (λ _ _, True).
Proof.
  intros HA HP.
  assert (op_ok m (match w with OpA => A | OpM => P end)) as Hop by (by destruct w).
  destruct (match w with OpA => A | OpM => P end) as [obj_ x_|obj_ x_|sc], f;
    cbn [LinearOperator_apply LinearOperator_applyInv]; cbn in Hop;
    try destruct Hop as (Ho & x & -> & Hx); unfold allocated in *;
    repeat run_step; done.
Qed.

(** The body of [run] returns when both operators can be applied. *)
Lemma run_prog_returns {R} A P (p : KrylovProg Real V R) (m : machine) :
  op_ok m A → op_ok m P → wp (run_prog A P p) m (λ _ _, True).
Proof.
  revert m. induction p as [r|w f Hv v tol k IH]; intros m HA HP; cbn [run_prog].
  - by apply wp_ret.
  - apply wp_bind. eapply wp_mono.
    { apply post_wp; [apply operator_call_post|by apply operator_call_returns]. }
    intros [Hv' tol'] m1 Hm1. cbn beta. apply IH; by eapply op_ok_step.
Qed.

(** ** compute *)

(** What [compute] leaves behind whenever it returns. *)
Lemma compute_post s x obj (bnd : Bnd) (m : machine) :
  post (compute s x obj bnd) m (λ _ m',
    same_shape m m' ∧ algo_state m' = algo_state m ∧ secants m' = secants m ∧
    ∃ k P evs,
      krylov_ (this m) = Some k ∧ precond_of m obj = Some P ∧
      trace m' = evs ++ EvKrylovRun k :: trace m ∧
      forallb (operator_event (HessianNK obj (iterateVec (algo_state m))) P) evs
        = true).
Proof.
  unfold compute, compute_run_Krylov, Krylov_run.
  repeat post_go.
  eapply post_mono; [apply run_prog_post|].
  intros [[[Kst' d] it] fl] m1
    ((Hthis & Halgo & Hheap & Hk & Hsec) & Hdom & (evs & Htr & Hevs)).
  repeat post_go; simplify_eq; cbn in *.
  all: unfold same_shape; cbn; rewrite ?Hthis, ?Halgo, ?Hheap, ?Hk, ?Hsec in *; cbn.
  all: split_and!; try done; same_dom.
  all: eexists _, _, evs; split_and!; eauto.
Qed.

Lemma ready_op_ok (m : machine) obj P :
  ready m → is_Some (objectives m !! obj) → precond_of m obj = Some P →
  op_ok m (HessianNK obj (iterateVec (algo_state m))) ∧ op_ok m P.
Proof.
  intros (_ & _ & (it & Hit & Hita) & _ & Hsec) Ho HP. split.
  - cbn. eauto.
  - unfold precond_of in HP. destruct (useSecantPrecond_ (this m)).
    + destruct Hsec as (_ & sc & Hsc & Hsca); [done|].
      rewrite Hsc in HP. injection HP as <-. done.
    + injection HP as <-. cbn. eauto.
Qed.

(** [compute] returns on a step that is ready. *)
Lemma compute_returns s x obj (bnd : Bnd) (m : machine) :
  ready m → allocated m s → is_Some (objectives m !! obj) →
  wp (compute s x obj bnd) m (λ _ _, True).
Proof.
  intros Hready Hs Ho.
  assert (∃ P, precond_of m obj = Some P) as [P HP].
  { unfold precond_of. destruct Hready as (_ & _ & _ & _ & Hsec).
    destruct (useSecantPrecond_ (this m)); [|eauto].
    destruct Hsec as (_ & sc & -> & _); [done|]. cbn. eauto. }
  destruct (ready_op_ok m obj P Hready Ho HP) as [HA HPok].
  destruct Hready as ((g & Hg & Hga) & _ & _ & (k & Hk & Hka) & _).
  unfold allocated in *.
  unfold compute, compute_run_Krylov, Krylov_run.
  unfold precond_of in HP.
  repeat run_step.
  eapply wp_mono.
  { apply post_wp; [apply run_prog_post|].
    apply run_prog_returns; [exact HA | exact HPok]. }
  intros [[[Kst' d] it] fl] m1 ((Hthis & Halgo & Hheap & Hkr & Hsec) & Hdom & _).
  destruct m1; cbn in Hthis, Halgo, Hheap, Hkr, Hsec, Hdom; subst.
  cbn beta iota.
  repeat run_step.
  match goal with |- context [if ?b then _ else _] => destruct b end;
    repeat run_step; done.
Qed.

(** The first part of [compute] keeps the step state and changes no vector
    but [s]. *)
Lemma compute_run_Krylov_post s x obj (bnd : Bnd) (m : machine) :
  post (compute_run_Krylov s x obj bnd) m (λ _ m1,
    state_ (this m1) = state_ (this m) ∧
    ∃ d, heap m1 = <[s:=d]> (heap m)).
Proof.
  unfold compute_run_Krylov, Krylov_run.
  repeat post_go.
  eapply post_mono; [apply run_prog_post|].
  intros [[[Kst' d] it] fl] m1 ((Hthis & _ & Hheap & _ & _) & _ & _).
  repeat post_go. cbn in *. rewrite Hheap, Hthis. eauto.
Qed.

(** Whenever the test of the Krylov flags fails, the step is the negated
    direction of the solver. *)
Lemma compute_no_fallback s x obj (bnd : Bnd) (m : machine) d it fl :
  Krylov_result s x obj bnd m = Some (d, it, fl) →
  (fl =? 2) && (it <=? 1) = false →
  ∃ m', compute s x obj bnd m = Some (tt, m') ∧
        heap m' !! s = Some (v_scale R_minus_one d).
Proof.
  intros Hres Hno. unfold Krylov_result in Hres.
  destruct (compute_run_Krylov s x obj bnd m) as [[[] m1]|] eqn:Hrun; [|done].
  cbn in Hres. destruct (heap m1 !! s) as [d'|] eqn:Hs; [|done].
  cbn in Hres. injection Hres as -> Hiter Hflag.
  unfold compute. rewrite (bind_run _ _ _ _ _ Hrun).
  apply wp_unit. apply wp_bind, wp_get. cbv zeta.
  rewrite Hflag, Hiter, Hno.
  assert (is_Some (heap m1 !! s)) by eauto.
  repeat run_step. cbn in *. by simplify_map_eq.
Qed.

(** C1.  If the Krylov solver returns the flag 2 with at most one
    iteration, [compute] returns and leaves in [s] the negated dual of the
    gradient of the step state, whatever direction [d] the solver wrote
    into [s]; the gradient itself is unchanged.  ([s] is not the gradient
    vector, which the step object owns.) *)
Theorem compute_fallback s x obj (bnd : Bnd) (m : machine) d it g gv :
  Krylov_result s x obj bnd m = Some (d, it, 2) →
  it ≤ 1 →
  gradientVec (state_ (this m)) = Some g →
  heap m !! g = Some gv →
  s ≠ g →
  ∃ m', compute s x obj bnd m = Some (tt, m') ∧
        heap m' !! s = Some (v_scale R_minus_one (v_dual gv)) ∧
        heap m' !! g = Some gv.
Proof.
  intros Hres Hit Hg Hgv Hne. unfold Krylov_result in Hres.
  destruct (compute_run_Krylov s x obj bnd m) as [[[] m1]|] eqn:Hrun; [|done].
  cbn in Hres. destruct (heap m1 !! s) as [d'|] eqn:Hs; [|done].
  cbn in Hres. injection Hres as -> Hiter Hflag.
  destruct (compute_run_Krylov_post _ _ _ _ _ _ _ Hrun) as (Hst & d0 & Hheap).
  assert (gradientVec (state_ (this m1)) = Some g) as Hg' by by rewrite Hst.
  assert (heap m1 !! g = Some gv) as Hg1.
  { rewrite Hheap. by rewrite lookup_insert_ne. }
  unfold compute. rewrite (bind_run _ _ _ _ _ Hrun).
  apply wp_unit. apply wp_bind, wp_get. cbv zeta.
  rewrite Hflag, Hiter. replace (it <=? 1) with true by lia. cbn [andb Z.eqb Pos.eqb].
  assert (is_Some (heap m1 !! s)) by eauto.
  assert (is_Some (heap m1 !! g)) by eauto.
  repeat run_step. cbn in *. by simplify_map_eq.
Qed.

(** C2.  If the Krylov solver returns the flag 2 after more than one
    iteration, the fallback is not taken: [compute] returns and leaves in
    [s] the negation of the direction [d] of the solver. *)
Theorem compute_negative_curvature_after_progress
    s x obj (bnd : Bnd) (m : machine) d it :
  Krylov_result s x obj bnd m = Some (d, it, 2) →
  1 < it →
  ∃ m', compute s x obj bnd m = Some (tt, m') ∧
        heap m' !! s = Some (v_scale R_minus_one d).
Proof.
  intros Hres Hit. eapply compute_no_fallback; [done|].
  apply andb_false_iff. right. lia.
Qed.

(** C3.  Whenever the fallback condition does not hold of what the Krylov
    solver returns, [compute] returns and leaves in [s] the direction [d]
    of the solver scaled by -1; so, for vectors on which scaling by -1
    twice is the identity, negating the step gives [d] back. *)
Theorem compute_negates_Krylov_direction
    s x obj (bnd : Bnd) (m : machine) d it fl :
  Krylov_result s x obj bnd m = Some (d, it, fl) →
  ¬ (fl = 2 ∧ it ≤ 1) →
  ∃ m', compute s x obj bnd m = Some (tt, m') ∧
        heap m' !! s = Some (v_scale R_minus_one d) ∧
        ((∀ v : V, v_scale R_minus_one (v_scale R_minus_one v) = v) →
         v_scale R_minus_one <$> heap m' !! s = Some d).
Proof.
  intros Hres Hno.
  destruct (compute_no_fallback s x obj bnd m d it fl Hres) as (m' & Hc & Hs).
  { apply andb_false_iff. destruct (Z.eqb_spec fl 2); [right|by left]. lia. }
  exists m'. split_and!; [done..|].
  intros Hinv. rewrite Hs. cbn. by rewrite Hinv.
Qed.

(** ** update *)

(** What [update] leaves behind whenever it returns. *)
Lemma update_post x s obj (bnd : Bnd) (m : machine) :
  post (update x s obj bnd) m (λ _ m',
    same_shape m m' ∧ this m' = this m ∧ krylovs m' = krylovs m ∧
    iter (algo_state m') = iter (algo_state m) + 1 ∧
    ngrad (algo_state m') = ngrad (algo_state m) + 1 ∧
    nfval (algo_state m') = nfval (algo_state m) ∧
    (useSecantPrecond_ (this m) = false → secants m' = secants m) ∧
    ∃ xv, trace m' = update_events m obj xv ++ trace m).
Proof.
  unfold update.
  repeat post_go; cbn in *; simplify_eq.
  all: split_and!; try done.
  all: try (unfold same_shape; cbn; split_and!; try done; same_dom).
  all: eexists; unfold update_events;
    repeat match goal with H : _ = _ |- _ => rewrite H end; done.
Qed.

(** [update] returns on a step that is ready. *)
Lemma update_returns x s obj (bnd : Bnd) (m : machine) :
  ready m → allocated m x → allocated m s → is_Some (objectives m !! obj) →
  wp (update x s obj bnd) m (λ _ _, True).
Proof.
  intros ((g & Hg & Hga) & (d & Hd & Hda) & (it & Hit & Hita) & _ & Hsec) Hx Hs Ho.
  unfold allocated in *. unfold update.
  destruct (useSecantPrecond_ (this m)) eqn:Hu.
  - destruct Hsec as ((gp & Hgp & Hgpa) & (sc & Hsc & Hsca)); [done|].
    repeat run_step. done.
  - repeat run_step. done.
Qed.

(** C4.  On a ready step, [update] called on an [x] that is none of the
    vectors the step object owns returns, and afterwards: the iterate of
    the algorithm state and [x] both hold [x + 1.0 * s]; [value] is what
    [obj.value] returned at that point, after [obj.update] at that point;
    the gradient of the step state is what [obj.gradient] returned at that
    same point; and [gnorm] is its norm.  ([gin] is the previous content of
    the gradient vector, which the oracle receives as its output
    argument.) *)
Theorem update_state_consistent x s obj (bnd : Bnd) (m : machine) xv sv o it g :
  ready m →
  heap m !! x = Some xv → heap m !! s = Some sv →
  objectives m !! obj = Some o →
  ¬ private_vec m x →
  iterateVec (algo_state m) = Some it →
  gradientVec (state_ (this m)) = Some g →
  it ≠ g →
  ∃ m' gin,
    update x s obj bnd m = Some (tt, m') ∧
    let xnew := v_axpy R_one sv xv in
    let o1 := obj_update o xnew true (iter (algo_state m) + 1) in
    let '(o2, val, tol1) := obj_value o1 xnew sqrt_ROL_EPSILON in
    let '(o3, gnew, tol2) := obj_gradient o2 gin xnew tol1 in
    heap m' !! it = Some xnew ∧
    heap m' !! x = Some xnew ∧
    heap m' !! g = Some gnew ∧
    value (algo_state m') = val ∧
    gnorm (algo_state m') = v_norm gnew.
Proof.
  intros ((g' & Hg' & Hga) & (d & Hd & Hda) & (it' & Hit' & Hita) & _ & Hsec)
         Hx Hs Ho Hpriv Hit Hg Hne.
  assert (g' = g) as -> by congruence. assert (it' = it) as -> by congruence.
  assert (x ≠ g ∧ x ≠ d) as [Hxg Hxd].
  { split; intros ->; apply Hpriv; unfold private_vec; auto. }
  assert (is_Some (heap m !! x)) as Hxa by eauto.
  assert (is_Some (heap m !! s)) as Hsa by eauto.
  assert (is_Some (objectives m !! obj)) as Hoa by eauto.
  unfold allocated in *.
  cut (wp (update x s obj bnd) m (λ _ m', ∃ gin,
    let xnew := v_axpy R_one sv xv in
    let o1 := obj_update o xnew true (iter (algo_state m) + 1) in
    let '(o2, val, tol1) := obj_value o1 xnew sqrt_ROL_EPSILON in
    let '(o3, gnew, tol2) := obj_gradient o2 gin xnew tol1 in
    heap m' !! it = Some xnew ∧
    heap m' !! x = Some xnew ∧
    heap m' !! g = Some gnew ∧
    value (algo_state m') = val ∧
    gnorm (algo_state m') = v_norm gnew)).
  { intros ([] & m' & ? & gin & ?). eauto. }
  unfold update.
  destruct (useSecantPrecond_ (this m)) eqn:Hu.
  - destruct Hsec as ((gp & Hgp & Hgpa) & (sc & Hsc & Hsca)); [done|].
    assert (x ≠ gp) as Hxgp.
    { intros ->; apply Hpriv; unfold private_vec; auto. }
    repeat run_step.
    cbn in *. simplify_map_eq.
    match goal with
    | Hv : obj_value _ _ _ = _, Hgr : obj_gradient _ ?gin _ _ = _ |- _ =>
        exists gin; rewrite Hv, Hgr
    end.
    destruct (decide (it = x)); by simplify_map_eq.
  - clear Hsec. repeat run_step.
    cbn in *. simplify_map_eq.
    match goal with
    | Hv : obj_value _ _ _ = _, Hgr : obj_gradient _ ?gin _ _ = _ |- _ =>
        exists gin; rewrite Hv, Hgr
    end.
    destruct (decide (it = x)); by simplify_map_eq.
Qed.

Lemma count_update_events obj (m : machine) xv :
  count (value_event obj) (update_events m obj xv) = 1%nat.
Proof.
  unfold update_events, count.
  destruct (useSecantPrecond_ (this m)), (secant_ (this m)); cbn;
    by rewrite bool_decide_eq_true_2.
Qed.

(** C10.  On a ready step every call of [update] returns.  It evaluates
    [obj.value]: the [value] of the algorithm state afterwards is what
    [obj_value] returns at the point [xpt] that [x] holds at that moment, on
    the objective as [obj_update] at that point left it, and the objective
    afterwards is the one [obj_value] and then [obj_gradient] left; [xpt] is
    [x + 1.0 * s] when [x] is none of the vectors the step object owns.
    That evaluation is the only call of [obj.value]; [nfval] is as it was,
    and [ngrad] is one more. *)
Theorem update_does_not_count_value x s obj (bnd : Bnd) (m : machine) xv sv o :
  ready m →
  heap m !! x = Some xv → heap m !! s = Some sv →
  objectives m !! obj = Some o →
  ∃ m' evs xpt gin,
    update x s obj bnd m = Some (tt, m') ∧
    (¬ private_vec m x → xpt = v_axpy R_one sv xv) ∧
    (let o1 := obj_update o xpt true (iter (algo_state m) + 1) in
     let '(o2, val, tol1) := obj_value o1 xpt sqrt_ROL_EPSILON in
     let '(o3, gnew, tol2) := obj_gradient o2 gin xpt tol1 in
     value (algo_state m') = val ∧ objectives m' !! obj = Some o3) ∧
    trace m' = evs ++ trace m ∧
    count (value_event obj) evs = 1%nat ∧
    nfval (algo_state m') = nfval (algo_state m) ∧
    ngrad (algo_state m') = ngrad (algo_state m) + 1.
Proof.
  intros Hready Hx Hs Ho.
  assert (wp (update x s obj bnd) m (λ _ m', ∃ xpt gin,
    (¬ private_vec m x → xpt = v_axpy R_one sv xv) ∧
    (let o1 := obj_update o xpt true (iter (algo_state m) + 1) in
     let '(o2, val, tol1) := obj_value o1 xpt sqrt_ROL_EPSILON in
     let '(o3, gnew, tol2) := obj_gradient o2 gin xpt tol1 in
     value (algo_state m') = val ∧ objectives m' !! obj = Some o3)))
    as ([] & m' & Hrun & xpt & gin & Hpt & Hval).
  { destruct Hready as ((g & Hg & Hga) & (d & Hd & Hda) & (it & Hit & Hita)
                        & _ & Hsec).
    assert (is_Some (heap m !! x)) as Hxa by eauto.
    assert (is_Some (heap m !! s)) as Hsa by eauto.
    assert (is_Some (objectives m !! obj)) as Hoa by eauto.
    unfold allocated in *. unfold update.
    destruct (useSecantPrecond_ (this m)) eqn:Hu.
    - destruct Hsec as ((gp & Hgp & Hgpa) & (sc & Hsc & Hsca)); [done|].
      repeat run_step. cbn in *. simplify_eq.
      simplify_map_eq.
      match goal with
      | Hv : obj_value (obj_update _ ?xp _ _) _ _ = _,
        Hgr : obj_gradient _ ?gi _ _ = _ |- _ =>
          exists xp, gi; rewrite Hv, Hgr
      end.
      split; [|done].
      intros Hpriv.
      assert (x ≠ d ∧ x ≠ gp) as [Hxd Hxgp].
      { split; intros ->; apply Hpriv; unfold private_vec; auto. }
      by simplify_map_eq.
    - clear Hsec. repeat run_step. cbn in *. simplify_eq.
      simplify_map_eq.
      match goal with
      | Hv : obj_value (obj_update _ ?xp _ _) _ _ = _,
        Hgr : obj_gradient _ ?gi _ _ = _ |- _ =>
          exists xp, gi; rewrite Hv, Hgr
      end.
      split; [|done].
      intros Hpriv.
      assert (x ≠ d) as Hxd.
      { intros ->; apply Hpriv; unfold private_vec; auto. }
      by simplify_map_eq. }
  destruct (update_post x s obj bnd m _ _ Hrun)
    as (_ & _ & _ & _ & Hng & Hnf & _ & xv' & Htr).
  exists m', (update_events m obj xv'), xpt, gin. split_and!; try done.
  apply count_update_events.
Qed.

(** ** Sequences of calls *)

Lemma same_shape_refl (m : machine) : same_shape m m.
Proof. by repeat split. Qed.

Lemma same_shape_trans (m1 m2 m3 : machine) :
  same_shape m1 m2 → same_shape m2 m3 → same_shape m1 m3.
Proof.
  unfold same_shape. intros (?&?&?&?&?&?&?&?&?&?) (?&?&?&?&?&?&?&?&?&?).
  split_and!; congruence.
Qed.

Lemma allocated_same_shape (m m' : machine) l :
  same_shape m m' → allocated m l → allocated m' l.
Proof.
  intros (_&_&_&_&_&_&Hd&_) Hl. unfold allocated in *.
  apply elem_of_dom. rewrite Hd. by apply elem_of_dom.
Qed.

Lemma ready_same_shape (m m' : machine) : same_shape m m' → ready m → ready m'.
Proof.
  intros Hsh. pose proof Hsh as (Hst & Hsc & Hkr & Hgp & Hu & Hit & Hdh & Hdo & Hdk & Hds).
  intros ((g & Hg & Hga) & (d & Hd & Hda) & (it & Hi & Hia) & (k & Hk & Hka) & Hsec).
  unfold ready. rewrite Hst, Hsc, Hkr, Hgp, Hu, Hit. split_and!.
  - exists g. eauto using allocated_same_shape.
  - exists d. eauto using allocated_same_shape.
  - exists it. eauto using allocated_same_shape.
  - exists k. split; [done|]. apply elem_of_dom. rewrite Hdk. by apply elem_of_dom.
  - intros Hu'. destruct (Hsec Hu') as ((gp & ? & ?) & (sc & ? & ?)). split.
    + exists gp. eauto using allocated_same_shape.
    + exists sc. split; [done|]. apply elem_of_dom. rewrite Hds. by apply elem_of_dom.
Qed.

Lemma call_ok_same_shape (m m' : machine) (c : @Call Bnd) :
  same_shape m m' → call_ok m c → call_ok m' c.
Proof.
  intros Hsh. pose proof Hsh as (_&_&_&_&_&_&_&Hdo&_).
  assert (∀ obj, is_Some (objectives m !! obj) → is_Some (objectives m' !! obj)).
  { intros obj Ho. apply elem_of_dom. rewrite Hdo. by apply elem_of_dom. }
  destruct c; cbn; [done|..]; intros; destruct_and?;
    split_and!; eauto using allocated_same_shape.
Qed.

(** A sequence of [compute] and [update] calls on a ready step returns, and
    each [update] in it adds one to [iter] and to [ngrad]. *)
Lemma calls_counters (cs : list (@Call Bnd)) (m : machine) :
  ready m → Forall (call_ok m) cs →
  wp (calls cs) m (λ _ m',
    same_shape m m' ∧
    iter (algo_state m') = iter (algo_state m) + Z.of_nat (updates cs) ∧
    ngrad (algo_state m') = ngrad (algo_state m) + Z.of_nat (updates cs)).
Proof.
  revert m. induction cs as [|c cs IH]; intros m Hready Hok; cbn [calls].
  - apply wp_ret. split_and!; [apply same_shape_refl | cbn; lia..].
  - apply Forall_cons in Hok as [Hc Hcs].
    assert (wp (call c) m (λ _ m1, same_shape m m1 ∧
              iter (algo_state m1) =
                iter (algo_state m) + (if is_update c then 1 else 0) ∧
              ngrad (algo_state m1) =
                ngrad (algo_state m) + (if is_update c then 1 else 0))) as Hcall.
    { destruct c as [? ? ? ? ?|s x obj bnd|x s obj bnd]; cbn in Hc |- *; [done|..].
      - destruct Hc as [Hs Ho].
        eapply wp_mono; [apply post_wp; [apply compute_post|by apply compute_returns]|].
        intros _ m1 (Hsh & Halgo & _). rewrite Halgo. split_and!; [done|lia..].
      - destruct Hc as (Hx & Hs & Ho).
        eapply wp_mono; [apply post_wp; [apply update_post|by apply update_returns]|].
        intros _ m1 (Hsh & _ & _ & Hit & Hng & _). by rewrite Hit, Hng. }
    apply wp_bind. eapply wp_mono; [exact Hcall|].
    intros _ m1 (Hsh & Hit & Hng). cbn beta.
    eapply wp_mono.
    { apply IH; [by eapply ready_same_shape|].
      eapply Forall_impl; [exact Hcs|]. intros c'. by apply call_ok_same_shape. }
    intros _ m2 (Hsh2 & Hit2 & Hng2). split_and!.
    + by eapply same_shape_trans.
    + rewrite Hit2, Hit. unfold updates. cbn [List.filter].
      destruct (is_update c); cbn [List.length]; lia.
    + rewrite Hng2, Hng. unfold updates. cbn [List.filter].
      destruct (is_update c); cbn [List.length]; lia.
Qed.

(** C5.  From a ready step whose [iter] and [ngrad] are 0, every sequence
    of [compute] and [update] calls on existing objects returns, and leaves
    [iter] and [ngrad] equal to the number of [update] calls in it. *)
Theorem update_counters (cs : list (@Call Bnd)) (m : machine) :
  ready m → Forall (call_ok m) cs →
  iter (algo_state m) = 0 → ngrad (algo_state m) = 0 →
  ∃ m', calls cs m = Some (tt, m') ∧
        iter (algo_state m') = Z.of_nat (updates cs) ∧
        ngrad (algo_state m') = Z.of_nat (updates cs).
Proof.
  intros Hready Hok Hit Hng. apply wp_unit.
  eapply wp_mono; [by apply calls_counters|].
  intros _ m' (_ & Hit' & Hng'). rewrite Hit', Hng', Hit, Hng. done.
Qed.

(** ** Constructors and initialize *)

Lemma construct_post parlist user (m : machine) :
  let u := get_bool (sublist (sublist parlist "General") "Secant")
             "Use as Preconditioner" false in
  post (construct parlist user) m (λ _ m',
    useSecantPrecond_ (this m') = u ∧ gp_ (this m') = None ∧
    (u = false → secants m' = secants m) ∧
    (∀ k sc, user = Some (Some k, sc) → krylov_ (this m') = Some k) ∧
    (∀ k sc, user = Some (k, Some sc) → secant_ (this m') = Some sc) ∧
    ∃ evs, trace m' = evs ++ trace m ∧
           forallb (ctor_event u user) evs = true ∧
           count run_event evs = 0%nat).
Proof.
  intros u. subst u.
  destruct user as [[[k|] [sc|]]|]; cbn [construct];
    unfold NewtonKrylovStep_ctor, NewtonKrylovStep_ctor_user;
    repeat post_go; cbn in *; simplify_eq.
  all: repeat match goal with
         | H : _ && _ = _ |- _ =>
             rewrite ?andb_false_r, ?andb_true_r in H; cbn in H
         end; try done.
  all: split_and!; try done; try congruence.
  all: try by (intros k' sc' ?; simplify_eq).
  all: first [ exists []; split; [reflexivity|]
             | eexists [_]; split; [reflexivity|]
             | eexists [_; _]; split; [reflexivity|] ]; cbn;
    repeat match goal with H : get_bool _ _ _ = _ |- _ => rewrite H end; done.
Qed.

Lemma Step_initialize_base_post x s g obj (bnd : Bnd) (m : machine) :
  post (Step_initialize_base x s g obj bnd) m (λ _ m', ∃ b, m' = of_base b m).
Proof.
  intros a m'. unfold Step_initialize_base.
  destruct (Step_initialize _ _ _ _ _ _) as [b|]; [|done].
  intros [= <- <-]. eauto.
Qed.

Lemma initialize_post x s g obj (bnd : Bnd) (m : machine) :
  post (initialize x s g obj bnd) m (λ _ m',
    same_members m m' ∧ krylovs m' = krylovs m ∧ secants m' = secants m ∧
    (useSecantPrecond_ (this m) = false →
       gp_ (this m') = gp_ (this m) ∧ trace m' = trace m) ∧
    ∃ evs, trace m' = evs ++ trace m ∧
           forallb (method_event (this m)) evs = true ∧
           count run_event evs = 0%nat).
Proof.
  unfold initialize. apply post_bind.
  eapply post_mono; [apply Step_initialize_base_post|].
  intros _ m1 [b ->]. cbn beta.
  repeat post_go; cbn in *.
  - split_and!; [done..|congruence|].
    eexists [_]. split; [reflexivity|]. cbn.
    match goal with H : useSecantPrecond_ _ = true |- _ => by rewrite H end.
  - split_and!; [done..|]. by exists [].
Qed.

Lemma count_app P (l1 l2 : list (Event V)) :
  count P (l1 ++ l2) = (count P l1 + count P l2)%nat.
Proof. unfold count. by rewrite List.filter_app, length_app. Qed.

Lemma count_none (P Q : Event V → bool) evs :
  (∀ e, P e = true → Q e = false) → forallb P evs = true → count Q evs = 0%nat.
Proof.
  intros HPQ. unfold count. induction evs as [|e evs IH]; [done|]. cbn.
  intros [He Hevs]%andb_true_iff. rewrite (HPQ e He). auto.
Qed.

Lemma method_event_members (m m' : machine) (e : Event V) :
  same_members m m' → method_event (this m') e = method_event (this m) e.
Proof. intros (Hk & Hs & Hu). unfold method_event. by rewrite Hk, Hs, Hu. Qed.

Lemma method_step_trans n1 n2 (m1 m2 m3 : machine) :
  method_step n1 m1 m2 → method_step n2 m2 m3 → method_step (n1 + n2) m1 m3.
Proof.
  intros (Hm1 & Hs1 & e1 & Ht1 & Hf1 & Hc1) (Hm2 & Hs2 & e2 & Ht2 & Hf2 & Hc2).
  pose proof Hm1 as (Hk & Hs & Hu). pose proof Hm2 as (Hk' & Hs' & Hu').
  split_and!.
  - unfold same_members. split_and!; congruence.
  - intros Hf. destruct (Hs1 Hf) as [? ?].
    destruct Hs2 as [? ?]; [congruence|]. split; congruence.
  - exists (e2 ++ e1). split_and!.
    + by rewrite Ht2, Ht1, app_assoc.
    + rewrite forallb_app, Hf1, andb_true_r.
      eapply forallb_impl; [|exact Hf2].
      intros e. by rewrite (method_event_members m1 m2).
    + rewrite count_app. lia.
Qed.

Lemma compute_method_step s x obj (bnd : Bnd) (m : machine) :
  post (compute s x obj bnd) m (λ _ m', method_step 1 m m').
Proof.
  eapply post_mono; [apply compute_post|].
  intros _ m' ((_ & Hsc & Hkr & Hgp & Hu & _) & _ & Hsec & k & P & evs & Hk & HP & Htr & Hevs).
  split_and!; [done..|].
  exists (evs ++ [EvKrylovRun k]). split_and!.
  - by rewrite <- app_assoc.
  - rewrite forallb_app. cbn. rewrite Hk, bool_decide_eq_true_2 by done.
    rewrite andb_true_r. eapply forallb_impl; [|exact Hevs].
    intros [] He; try done; cbn in He |- *.
    all: unfold precond_of in HP; destruct (useSecantPrecond_ (this m));
      [|injection HP as <-; done].
    all: destruct (secant_ (this m)) as [sc'|]; [|done]; injection HP as <-.
    all: cbn in He; apply bool_decide_eq_true in He as ->.
    all: by rewrite bool_decide_eq_true_2.
  - rewrite count_app. cbn.
    rewrite (count_none (operator_event (HessianNK obj (iterateVec (algo_state m))) P));
      [done| |done].
    by intros [].
Qed.

Lemma update_method_step x s obj (bnd : Bnd) (m : machine) :
  post (update x s obj bnd) m (λ _ m', method_step 0 m m').
Proof.
  eapply post_mono; [apply update_post|].
  intros _ m' ((_ & Hsc & Hkr & Hgp & Hu & _) & Hthis & _ & _ & _ & _ & Hsec & xv & Htr).
  split_and!; [done..|by auto|].
  exists (update_events m obj xv). split; [done|].
  unfold update_events, count.
  destruct (useSecantPrecond_ (this m)) eqn:E1, (secant_ (this m)) eqn:E2; cbn;
    rewrite ?E1, ?E2, ?bool_decide_eq_true_2 by done; done.
Qed.

Lemma initialize_method_step x s g obj (bnd : Bnd) (m : machine) :
  post (initialize x s g obj bnd) m (λ _ m', method_step 0 m m').
Proof.
  eapply post_mono; [apply initialize_post|].
  intros _ m' (Hmem & _ & Hsec & Hgp & Hevs).
  split_and!; [done| |done]. intros Hu. by destruct (Hgp Hu).
Qed.

Lemma call_method_step (c : @Call Bnd) (m : machine) :
  post (call c) m (λ _ m', method_step (if is_compute c then 1 else 0) m m').
Proof.
  destruct c; cbn.
  - apply initialize_method_step.
  - apply compute_method_step.
  - apply update_method_step.
Qed.

(** Whatever sequence of calls returns, it keeps the Krylov and secant
    members, runs the Krylov member once for each [compute], and leaves
    only events that the members allow. *)
Lemma calls_method_step (cs : list (@Call Bnd)) (m : machine) :
  post (calls cs) m (λ _ m', method_step (computes cs) m m').
Proof.
  revert m. induction cs as [|c cs IH]; intros m; cbn [calls].
  - apply post_ret. split_and!; [done..|]. by exists [].
  - apply post_bind. eapply post_mono; [apply call_method_step|].
    intros [] m1 H1. eapply post_mono; [apply IH|].
    intros [] m2 H2. cbn beta.
    replace (computes (c :: cs))
      with ((if is_compute c then 1 else 0) + computes cs)%nat.
    + by eapply method_step_trans.
    + unfold computes. cbn [List.filter]. by destruct (is_compute c).
Qed.

Lemma bind_inv {A B} (c : prog A) (f : A → prog B) (m : machine) r :
  (c ≫= f) m = Some r → ∃ a m1, c m = Some (a, m1) ∧ f a m1 = Some r.
Proof.
  unfold mbind, M_bind. destruct (c m) as [[a m1]|]; [eauto | done].
Qed.

(** C6.  When the option "Use as Preconditioner" of the secant sublist is
    false, then after construction (by either constructor) and any
    sequence of [initialize], [compute] and [update] calls that returns:
    the store of secant objects is as it was before construction, [gp_] is
    null, and no event since construction is a secant factory call, a
    secant apply or update, or a clone. *)
Theorem secant_gating parlist user (cs : list (@Call Bnd)) (m m' : machine) :
  get_bool (sublist (sublist parlist "General") "Secant")
    "Use as Preconditioner" false = false →
  (construct parlist user ;; calls cs) m = Some (tt, m') →
  secants m' = secants m ∧ gp_ (this m') = None ∧
  ∃ evs, trace m' = evs ++ trace m ∧ forallb secant_free evs = true.
Proof.
  intros Hu Hrun.
  apply bind_inv in Hrun as ([] & m1 & Hctor & Hcalls).
  destruct (construct_post parlist user m _ _ Hctor)
    as (Hu1 & Hgp1 & Hsec1 & _ & _ & e1 & Ht1 & Hf1 & _).
  rewrite Hu in Hu1, Hsec1, Hf1.
  destruct (calls_method_step cs m1 _ _ Hcalls)
    as (_ & Hkeep & e2 & Ht2 & Hf2 & _).
  destruct (Hkeep Hu1) as [Hgp2 Hsec2].
  split_and!; [by rewrite Hsec2, Hsec1 | congruence |].
  exists (e2 ++ e1). split; [by rewrite Ht2, Ht1, app_assoc|].
  rewrite forallb_app. apply andb_true_iff. split.
  - eapply forallb_impl; [|exact Hf2].
    intros []; cbn; rewrite ?Hu1; done.
  - eapply forallb_impl; [|exact Hf1]. by intros [].
Qed.

Lemma count_only_krylov k (evs : list (Event V)) :
  forallb (only_krylov k) evs = true →
  count (krylov_run_event k) evs = count run_event evs.
Proof.
  unfold count. induction evs as [|e evs IH]; [done|]. cbn.
  intros [He Hevs]%andb_true_iff.
  destruct e; cbn in *; rewrite ?He; cbn; auto.
Qed.

(** What a call of [compute] that returns has done: it has run
    [krylov_run] of the solver object that [krylov_] names, on the content
    of [s] and of the gradient, with the iteration count as it was and the
    flag 0, against the Hessian at the iterate and the preconditioner it
    selected; the solver object, the two members and [s] hold what that run
    returned, [s] negated and, after the fallback, replaced. *)
Lemma compute_runs_solver s x obj (bnd : Bnd) (m m2 : machine) :
  compute s x obj bnd m = Some (tt, m2) →
  ∃ k Kst sv g gv P Kst' d it fl mr,
    krylov_ (this m) = Some k ∧ krylovs m !! k = Some Kst ∧
    heap m !! s = Some sv ∧
    gradientVec (state_ (this m)) = Some g ∧ heap m !! g = Some gv ∧
    precond_of m obj = Some P ∧
    run_prog (HessianNK obj (iterateVec (algo_state m))) P
      (krylov_run Kst sv gv (iterKrylov_ (this m)) 0)
      (set_trace (cons (EvKrylovRun k)) (set_this (with_flagKrylov_ 0) m))
      = Some (Kst', d, it, fl, mr) ∧
    krylovs m2 !! k = Some Kst' ∧
    iterKrylov_ (this m2) = it ∧ flagKrylov_ (this m2) = fl ∧
    heap m2 !! s =
      Some (v_scale R_minus_one
              (if (fl =? 2) && (it <=? 1)
               then v_dual (if decide (s = g) then d else gv) else d)).
Proof.
  revert m2. cut (post (compute s x obj bnd) m (λ _ m2,
    ∃ k Kst sv g gv P Kst' d it fl mr,
      krylov_ (this m) = Some k ∧ krylovs m !! k = Some Kst ∧
      heap m !! s = Some sv ∧
      gradientVec (state_ (this m)) = Some g ∧ heap m !! g = Some gv ∧
      precond_of m obj = Some P ∧
      run_prog (HessianNK obj (iterateVec (algo_state m))) P
        (krylov_run Kst sv gv (iterKrylov_ (this m)) 0)
        (set_trace (cons (EvKrylovRun k)) (set_this (with_flagKrylov_ 0) m))
        = Some (Kst', d, it, fl, mr) ∧
      krylovs m2 !! k = Some Kst' ∧
      iterKrylov_ (this m2) = it ∧ flagKrylov_ (this m2) = fl ∧
      heap m2 !! s =
        Some (v_scale R_minus_one
                (if (fl =? 2) && (it <=? 1)
                 then v_dual (if decide (s = g) then d else gv) else d)))).
  { intros Hp m2 Hrun. exact (Hp _ _ Hrun). }
  unfold compute, compute_run_Krylov, Krylov_run.
  repeat post_go.
  intros [[[Kst' d] it] fl] mr Hrun.
  destruct (run_prog_post _ _ _ _ _ _ Hrun)
    as ((Hthis & Halgo & Hheap & Hk & Hsec) & _ & _).
  repeat post_go; cbn in *; simplify_eq.
  all: rewrite ?Hheap in *; cbn in *.
  all: do 11 eexists; split_and!; try eassumption; try reflexivity.
  all: try by simplify_map_eq.
  all: rewrite ?Heqb.
  - rewrite Hthis in *. cbn in *. simplify_eq.
    case_decide; by simplify_map_eq.
  - by simplify_map_eq.
Qed.
(** C7.  After the constructor that takes user-defined objects and any
    sequence of calls that returns: for a non-null [krylov] argument, no
    Krylov factory call was made, [krylov_] is that object, every run of a
    Krylov solver was a run of that object, and there is one for each call
    of [compute]; for a non-null [secant] argument, no secant factory call
    was made, [secant_] is that object, and every secant apply or update
    was made on it.  And every call of [compute] that follows and returns
    has run [krylov_run] of the solver object that [krylov_] names, the
    supplied one if there is one, as that object was, on the content of [s]
    and of the gradient, with the supplied secant object as the
    preconditioner when there is one and the secant preconditioner is on
    (applying it is [secant_apply] or [secant_applyInverse] of that object);
    afterwards that solver object is as the run left it, [iterKrylov_] and
    [flagKrylov_] are what it returned, and [s] is its direction, negated
    and, after the fallback, replaced. *)
Theorem user_objects_are_used parlist krylov secant
    (cs : list (@Call Bnd)) (m m' : machine) :
  (NewtonKrylovStep_ctor_user parlist krylov secant ;; calls cs) m
    = Some (tt, m') →
  (∃ evs, trace m' = evs ++ trace m ∧
     (∀ k, krylov = Some k →
        krylov_ (this m') = Some k ∧ forallb (only_krylov k) evs = true ∧
        count (krylov_run_event k) evs = computes cs) ∧
     (∀ sc, secant = Some sc →
        secant_ (this m') = Some sc ∧ forallb (only_secant sc) evs = true)) ∧
  ∀ s x obj (bnd : Bnd) (m2 : machine),
    compute s x obj bnd m' = Some (tt, m2) →
    ∃ k Kst sv g gv P Kst' d it fl mr,
      krylov_ (this m') = Some k ∧ (∀ k', krylov = Some k' → k' = k) ∧
      krylovs m' !! k = Some Kst ∧
      heap m' !! s = Some sv ∧
      gradientVec (state_ (this m')) = Some g ∧ heap m' !! g = Some gv ∧
      precond_of m' obj = Some P ∧
      (∀ sc, secant = Some sc → useSecantPrecond_ (this m') = true →
         P = SecantOperator sc ∧
         ∀ B Hv v tol (mm : machine), secants mm !! sc = Some B →
           LinearOperator_apply P Hv v tol mm
             = Some (secant_apply B Hv v tol,
                     set_trace (cons (EvSecantApply sc)) mm) ∧
           LinearOperator_applyInv P Hv v tol mm
             = Some (secant_applyInverse B Hv v tol,
                     set_trace (cons (EvSecantApplyInverse sc)) mm)) ∧
      run_prog (HessianNK obj (iterateVec (algo_state m'))) P
        (krylov_run Kst sv gv (iterKrylov_ (this m')) 0)
        (set_trace (cons (EvKrylovRun k)) (set_this (with_flagKrylov_ 0) m'))
        = Some (Kst', d, it, fl, mr) ∧
      krylovs m2 !! k = Some Kst' ∧
      iterKrylov_ (this m2) = it ∧ flagKrylov_ (this m2) = fl ∧
      heap m2 !! s =
        Some (v_scale R_minus_one
                (if (fl =? 2) && (it <=? 1)
                 then v_dual (if decide (s = g) then d else gv) else d)).
Proof.
  intros Hrun.
  apply bind_inv in Hrun as ([] & m1 & Hctor & Hcalls).
  destruct (construct_post parlist (Some (krylov, secant)) m _ _ Hctor)
    as (_ & _ & _ & Hk1 & Hs1 & e1 & Ht1 & Hf1 & Hc1).
  destruct (calls_method_step cs m1 _ _ Hcalls)
    as ((Hk2 & Hs2 & _) & _ & e2 & Ht2 & Hf2 & Hc2).
  split.
  - exists (e2 ++ e1). split; [by rewrite Ht2, Ht1, app_assoc|]. split.
    + intros k ->. specialize (Hk1 k secant eq_refl).
      assert (forallb (only_krylov k) (e2 ++ e1) = true) as Hall.
      { rewrite forallb_app. apply andb_true_iff. split.
        - eapply forallb_impl; [|exact Hf2].
          intros []; cbn; try done. rewrite Hk1.
          intros He%bool_decide_eq_true. apply bool_decide_eq_true. congruence.
        - eapply forallb_impl; [|exact Hf1]. by intros []. }
      split_and!; [congruence | done |].
      rewrite (count_only_krylov k _ Hall), count_app. lia.
    + intros sc ->. specialize (Hs1 krylov sc eq_refl).
      split; [congruence|].
      rewrite forallb_app. apply andb_true_iff. split.
      * eapply forallb_impl; [|exact Hf2].
        intros []; cbn; try done; rewrite Hs1; intros [_ He]%andb_true_iff;
          apply bool_decide_eq_true in He; apply bool_decide_eq_true; congruence.
      * eapply forallb_impl; [|exact Hf1].
        intros []; cbn; try done. by rewrite andb_false_r.
  - intros s x obj bnd m2 Hcomp.
    destruct (compute_runs_solver s x obj bnd m' m2 Hcomp)
      as (k & Kst & sv & g & gv & P & Kst' & d & it & fl & mr
          & Hk & HKst & Hsv & Hg & Hgv & HP & Hsolve & HK' & Hit & Hfl & Hs).
    exists k, Kst, sv, g, gv, P, Kst', d, it, fl, mr.
    split_and!; try done.
    + intros k' ->. specialize (Hk1 k' secant eq_refl). congruence.
    + intros sc -> Hu. specialize (Hs1 krylov sc eq_refl).
      unfold precond_of in HP. rewrite Hu, Hs2, Hs1 in HP. cbn in HP.
      injection HP as <-. split; [done|].
      intros B Hv v tol mm HB.
      unfold LinearOperator_apply, LinearOperator_applyInv, load_secant,
        emit, modify, get, lift, mbind, M_bind, mret, M_ret.
      by rewrite HB.
Qed.

(** ** The vector passed as [x] *)

Lemma framed_ret {A} x v (a : A) : framed x v (mret a : prog A).
Proof. done. Qed.

Lemma framed_bind {A B} x v (c : prog A) (f : A → prog B) :
  framed x v c → (∀ a, framed x v (f a)) → framed x v (c ≫= f).
Proof.
  intros Hc Hf m. unfold mbind, M_bind. rewrite Hc.
  destruct (c m) as [[a m1]|]; cbn; [apply Hf|done].
Qed.

Lemma framed_get_bind {B} x v (f : machine → prog B) :
  (∀ m, f (poke x v m) = f m) → (∀ m, framed x v (f m)) →
  framed x v (get ≫= f).
Proof. intros Hconv Hf m. unfold mbind, M_bind, get. rewrite Hconv. apply Hf. Qed.

Lemma framed_modify x v (g : machine → machine) :
  (∀ m, g (poke x v m) = poke x v (g m)) → framed x v (modify g).
Proof. intros Hg m. unfold modify. cbn. by rewrite Hg. Qed.

Lemma framed_lift {A} x v (o : option A) : framed x v (lift o : prog A).
Proof. intros m. unfold lift. by destruct o. Qed.

Lemma framed_load x v l : l ≠ x → framed x v (load l : prog V).
Proof.
  intros Hne m. unfold load, mbind, M_bind, get, lift. cbn.
  rewrite lookup_insert_ne by done. by destruct (heap m !! l).
Qed.

Lemma framed_store x v l d : l ≠ x → framed x v (store l d : prog unit).
Proof.
  intros Hne. apply framed_modify. intros m. unfold poke, set_heap. cbn.
  f_equal. by apply insert_insert_ne.
Qed.

Lemma framed_lift_bind {A B} x v (o : option A) (f : A → prog B) :
  (∀ a, o = Some a → framed x v (f a)) → framed x v (lift o ≫= f).
Proof.
  intros Hf. destruct o as [a|]; [|done].
  intros m. by apply Hf.
Qed.

Lemma framed_assoc {A B C} x v (c : prog A) (f : A → prog B) (g : B → prog C) :
  framed x v (c ≫= λ a, f a ≫= g) → framed x v ((c ≫= f) ≫= g).
Proof.
  intros Hfr m. specialize (Hfr m). unfold mbind, M_bind in *.
  destruct (c (poke x v m)) as [[a m1]|], (c m) as [[a' m1']|]; done.
Qed.

Lemma framed_ret_bind {A B} x v (a : A) (f : A → prog B) :
  framed x v (f a) → framed x v (mret a ≫= f).
Proof. intros Hfr m. apply Hfr. Qed.

Ltac framed_go :=
  lazymatch goal with
  | |- framed _ _ (mbind _ get) =>
      apply framed_get_bind; [intros ?; reflexivity | intros ?]
  | |- framed _ _ (mbind _ (lift _)) => apply framed_lift_bind; intros ? ?
  | |- framed _ _ (mbind _ (deref _)) => apply framed_lift_bind; intros ? ?
  | |- framed _ _ (mbind _ (mbind _ _)) => apply framed_assoc
  | |- framed _ _ (mbind _ (mret _)) => apply framed_ret_bind
  | |- framed _ _ (mbind _ (Krylov_run _ _ _ _ _)) => unfold Krylov_run
  | |- framed _ _ (mbind _ (let '(_, _) := ?p in _)) => destruct p as [? ?]
  | |- framed _ _ (mbind _ _) => apply framed_bind; [|intros ?]
  | |- framed _ _ (mret _) => apply framed_ret
  | |- framed _ _ (load _) => apply framed_load; first [assumption | congruence]
  | |- framed _ _ (store _ _) => apply framed_store; first [assumption | congruence]
  | |- framed _ _ (modify _) => apply framed_modify; intros ?; reflexivity
  | |- framed _ _ (emit _) => apply framed_modify; intros ?; reflexivity
  | |- framed _ _ (store_obj _ _) => apply framed_modify; intros ?; reflexivity
  | |- framed _ _ (lift _) => apply framed_lift
  | |- framed _ _ (deref _) => apply framed_lift
  | |- framed _ _ (load_obj _) => unfold load_obj
  | |- framed _ _ (load_secant _) => unfold load_secant
  | |- framed _ _ (load_krylov _) => unfold load_krylov
  | |- framed _ _ (let '(_, _) := ?p in _) => destruct p as [? ?]
  | |- framed _ _ (if ?b then _ else _) => destruct b
  | |- framed _ _ (vec_set_dual _ _) => unfold vec_set_dual
  | |- framed _ _ (vec_scale _ _) => unfold vec_scale
  | |- framed _ _ (Objective_hessVec _ _ _ _ _) => unfold Objective_hessVec
  | |- framed _ _ (Objective_precond _ _ _ _ _) => unfold Objective_precond
  end.

Lemma framed_operator_call x v op f Hv w tol :
  op_away x op →
  framed x v (match f with
              | Apply => LinearOperator_apply op Hv w tol
              | ApplyInverse => LinearOperator_applyInv op Hv w tol
              end : prog (V * Real)).
Proof.
  intros Hop.
  destruct f, op as [obj_ x_|obj_ x_|sc];
    cbn [LinearOperator_apply LinearOperator_applyInv]; cbn in Hop.
  all: repeat framed_go.
Qed.

Lemma framed_run_prog {R} x v A P (p : KrylovProg Real V R) :
  op_away x A → op_away x P → framed x v (run_prog A P p).
Proof.
  intros HA HP. induction p as [r|w f Hv u tol k IH]; cbn [run_prog].
  - apply framed_ret.
  - apply framed_bind.
    + apply framed_operator_call. by destruct w.
    + intros [Hv' tol']. apply IH.
Qed.

Lemma framed_seq {A B} x v (c : prog A) (f : A → prog B) (m : machine) :
  c (poke x v m) = (λ '(a, m'), (a, poke x v m')) <$> c m →
  (∀ a m1, c m = Some (a, m1) →
     f a (poke x v m1) = (λ '(b, m'), (b, poke x v m')) <$> f a m1) →
  (c ≫= f) (poke x v m) = (λ '(b, m'), (b, poke x v m')) <$> (c ≫= f) m.
Proof.
  intros Hc Hf. unfold mbind, M_bind. rewrite Hc.
  destruct (c m) as [[a m1]|]; cbn; [by apply Hf|done].
Qed.

(** The first part of [compute] neither reads nor writes a vector that is
    not [s], the gradient of the step state or the iterate of the algorithm
    state. *)
Lemma framed_compute_run_Krylov x' v s x obj (bnd : Bnd) (m : machine) :
  x' ≠ s →
  gradientVec (state_ (this m)) ≠ Some x' →
  iterateVec (algo_state m) ≠ Some x' →
  compute_run_Krylov s x obj bnd (poke x' v m)
  = (λ '(a, m'), (a, poke x' v m')) <$> compute_run_Krylov s x obj bnd m.
Proof.
  intros Hs Hg Hit.
  assert (s ≠ x') as Hs' by congruence.
  unfold compute_run_Krylov.
  lazymatch goal with
  | |- (mbind ?F get) _ = _ =>
      change (F m (poke x' v m) = (λ '(a, m'), (a, poke x' v m')) <$> F m m);
      cut (framed x' v (F m)); [intros Hfr; apply Hfr|]
  end.
  cbv beta zeta. unfold Krylov_run.
  repeat framed_go.
  apply framed_run_prog.
  - simplify_eq. cbn. done.
  - destruct (useSecantPrecond_ (this m)).
    + destruct (secant_ (this m)); cbn in *; by simplify_eq.
    + simplify_eq. cbn. done.
Qed.

(** [compute] neither reads nor writes a vector that is not [s], the
    gradient of the step state or the iterate of the algorithm state. *)
Lemma framed_compute x' v s x obj (bnd : Bnd) (m : machine) :
  x' ≠ s →
  gradientVec (state_ (this m)) ≠ Some x' →
  iterateVec (algo_state m) ≠ Some x' →
  compute s x obj bnd (poke x' v m)
  = (λ '(a, m'), (a, poke x' v m')) <$> compute s x obj bnd m.
Proof.
  intros Hs Hg Hit.
  assert (s ≠ x') as Hs' by congruence.
  unfold compute. apply framed_seq.
  { by apply framed_compute_run_Krylov. }
  intros [] m1 Hrun.
  destruct (compute_run_Krylov_post _ _ _ _ _ _ _ Hrun) as (Hst & _).
  lazymatch goal with
  | |- (mbind ?F get) _ = _ =>
      change (F m1 (poke x' v m1) = (λ '(a, m'), (a, poke x' v m')) <$> F m1 m1);
      cut (framed x' v (F m1)); [intros Hfr; apply Hfr|]
  end.
  cbv beta zeta. rewrite Hst.
  repeat framed_go.
Qed.

(** C9.  [compute] does not depend on its [x] argument: called with another
    vector as [x] it does the same; and replacing the content of the vector
    passed as [x] changes nothing else in what [compute] does, as long as
    that vector is not [s], the gradient of the step state, or the iterate
    of the algorithm state that the operators are bound to. *)
Theorem compute_ignores_x s obj (bnd : Bnd) (m : machine) :
  (∀ x1 x2, compute s x1 obj bnd m = compute s x2 obj bnd m) ∧
  (∀ x v,
     x ≠ s →
     gradientVec (state_ (this m)) ≠ Some x →
     iterateVec (algo_state m) ≠ Some x →
     compute s x obj bnd (poke x v m)
     = (λ '(a, m'), (a, poke x v m')) <$> compute s x obj bnd m).
Proof.
  split; [done|]. intros x v. apply framed_compute.
Qed.

(** ** The status line *)

Lemma prefix_append (f rest : string) : String.prefix f (f +:+ rest) = true.
Proof.
  induction f as [|c f IH]; simpl.
  - by destruct rest.
  - destruct (Ascii.ascii_dec c c); [exact IH | done].
Qed.

Lemma occurs_prefix (f out : string) :
  String.prefix f out = true → occurs f out = true.
Proof. intros Hp. destruct out; unfold occurs; fold occurs; by rewrite Hp. Qed.

Lemma occurs_here (f rest : string) : occurs f (f +:+ rest) = true.
Proof. apply occurs_prefix, prefix_append. Qed.

Lemma occurs_later (f pre rest : string) :
  occurs f rest = true → occurs f (pre +:+ rest) = true.
Proof.
  intros Hocc. induction pre as [|c pre IH]; simpl; [done|].
  rewrite IH. apply orb_true_r.
Qed.

Lemma string_append_assoc (a b c : string) :
  (a +:+ b) +:+ c = a +:+ (b +:+ c).
Proof.
  induction a as [|x a IH]; [done|].
  change (String x ((a +:+ b) +:+ c) = String x (a +:+ (b +:+ c))).
  by f_equal.
Qed.

Lemma occurs_setw n (f rest : string) :
  occurs f (setw_left n f +:+ rest) = true.
Proof. unfold setw_left. rewrite string_append_assoc. apply occurs_here. Qed.

Ltac find_field :=
  repeat first [ apply occurs_setw | apply occurs_later ].

(** C8, as the code has it.  When [iter] is not 0, the string that [print]
    returns contains all eight fields.  When [iter] is 0 it is the line of
    [printName], the header if asked for, and one line that holds exactly
    three cells: the iteration count, the objective value and the gradient
    norm.  These three occur in it, and the step norm, the two evaluation
    counts, the Krylov iteration count and the Krylov flag are not written:
    two steps and states that agree on the three fields and on the name and
    header lines print the same string, whatever the other five hold. *)
Theorem print_fields (t : step) (a : AlgorithmState Real) (print_header : bool) :
  (iter a ≠ 0 → all_occur (fields t a) (print t a print_header) = true) ∧
  (iter a = 0 →
     print t a print_header =
       printName t +:+ (if print_header then printHeader t else EmptyString) +:+
       "  " +:+
       setw_left 6 (pretty (iter a)) +:+
       setw_left 15 (show_Real (value a)) +:+
       setw_left 15 (show_Real (gnorm a)) +:+ nl ∧
     all_occur (fields0 a) (print t a print_header) = true ∧
     ∀ (t' : step) (a' : AlgorithmState Real),
       iter a' = 0 → value a' = value a → gnorm a' = gnorm a →
       printName t' = printName t → printHeader t' = printHeader t →
       print t' a' print_header = print t a print_header).
Proof.
  unfold all_occur. split; intros Hit.
  - unfold print. apply Z.eqb_neq in Hit. rewrite Hit. unfold fields. cbn [forallb].
    repeat (apply andb_true_intro; split); try done; find_field.
  - assert ((iter a =? 0) = true) as Hb by (by apply Z.eqb_eq).
    split_and!.
    + unfold print. by rewrite Hb.
    + unfold print. rewrite Hb. unfold fields0. cbn [forallb].
      repeat (apply andb_true_intro; split); try done; find_field.
    + intros t' a' Hit' Hv Hg Hn Hh. unfold print.
      by rewrite Hit, Hit', Hv, Hg, Hn, Hh.
Qed.

(** * Further properties *)

(** ** Constructors *)

(** X1.  Either constructor throws exactly when a factory it has to call
    rejects the parameter list: the Krylov factory when no solver was
    supplied, the secant factory when the secant preconditioner is on and
    no secant object was supplied. *)
Theorem construct_fails_iff parlist user (m : machine) :
  construct parlist user m = None ↔
  (krylov_supplied user = false ∧ KrylovFactory_new parlist = None) ∨
  (use_as_preconditioner parlist = true ∧ secant_supplied user = false ∧
   SecantFactory_new parlist = None).
Proof.
  unfold use_as_preconditioner.
  destruct user as [[[k|] [sc|]]|]; cbn [construct krylov_supplied secant_supplied];
    unfold NewtonKrylovStep_ctor, NewtonKrylovStep_ctor_user,
      KrylovFactory, SecantFactory, mbind, M_bind, modify, get, lift, mret, M_ret;
    cbn;
    destruct (get_bool _ _ _); cbn;
    destruct (KrylovFactory_new parlist), (SecantFactory_new parlist); cbn;
    intuition congruence.
Qed.

(** What a constructor leaves in the members, and that it touches nothing
    outside the step object but the stores of the objects it builds. *)
Lemma construct_members_post parlist user (m : machine) :
  post (construct parlist user) m (λ _ m',
    state_ (this m') = Step_new ∧ gp_ (this m') = None ∧
    iterKrylov_ (this m') = 0 ∧ flagKrylov_ (this m') = 0 ∧
    verbosity_ (this m') = get_int (sublist parlist "General") "Print Verbosity" 0 ∧
    useSecantPrecond_ (this m') = use_as_preconditioner parlist ∧
    ekv_ (this m') =
      (if krylov_supplied user then KRYLOV_USERDEFINED
       else StringToEKrylov
              (get_string (sublist (sublist parlist "General") "Krylov")
                 "Type" "Conjugate Gradients")) ∧
    esec_ (this m') =
      (if match user with
          | None => true
          | Some _ => use_as_preconditioner parlist && negb (secant_supplied user)
          end
       then StringToESecant
              (get_string (sublist (sublist parlist "General") "Secant")
                 "Type" "Limited-Memory BFGS")
       else SECANT_USERDEFINED) ∧
    is_Some (krylov_ (this m')) ∧
    (use_as_preconditioner parlist = true → is_Some (secant_ (this m'))) ∧
    algo_state m' = algo_state m ∧ heap m' = heap m ∧
    objectives m' = objectives m).
Proof.
  unfold use_as_preconditioner.
  destruct user as [[[k|] [sc|]]|]; cbn [construct krylov_supplied secant_supplied];
    unfold NewtonKrylovStep_ctor, NewtonKrylovStep_ctor_user;
    repeat post_go; cbn in *; simplify_eq.
  all: repeat match goal with
         | H : _ && _ = _ |- _ =>
             rewrite ?andb_false_r, ?andb_true_r in H; cbn in H
         end; try done.
  all: repeat match goal with H : get_bool _ _ _ = _ |- _ => rewrite H end.
  all: cbn; split_and!; try done; eauto.
  all: by rewrite andb_false_r.
Qed.


(** X3.  No null solver.  After construction and any sequence of calls that
    returns, [krylov_] is not null, and [secant_] is not null whenever
    [useSecantPrecond_] is set, which is exactly when the parameter list
    says so: [compute] and [update] never find a null solver or secant
    object. *)
Theorem solver_members_not_null parlist user (cs : list (@Call Bnd))
    (m m' : machine) :
  (construct parlist user ;; calls cs) m = Some (tt, m') →
  is_Some (krylov_ (this m')) ∧
  useSecantPrecond_ (this m') = use_as_preconditioner parlist ∧
  (useSecantPrecond_ (this m') = true → is_Some (secant_ (this m'))).
Proof.
  intros Hrun.
  apply bind_inv in Hrun as ([] & m1 & Hctor & Hcalls).
  destruct (construct_members_post parlist user m _ _ Hctor)
    as (_ & _ & _ & _ & _ & Hu & _ & _ & Hk & Hs & _).
  destruct (calls_method_step cs m1 _ _ Hcalls) as ((Hk2 & Hs2 & Hu2) & _).
  rewrite Hk2, Hs2, Hu2, Hu. auto.
Qed.

(** ** initialize *)

(** The objects a constructor leaves in [krylov_] and [secant_] exist, when
    the supplied ones do. *)
Lemma construct_allocates parlist user (m : machine) :
  (∀ k sc, user = Some (Some k, sc) → is_Some (krylovs m !! k)) →
  (∀ k sc, user = Some (k, Some sc) → is_Some (secants m !! sc)) →
  post (construct parlist user) m (λ _ m1,
    state_ (this m1) = Step_new ∧ algo_state m1 = algo_state m ∧
    heap m1 = heap m ∧ objectives m1 = objectives m ∧
    (∃ k, krylov_ (this m1) = Some k ∧ is_Some (krylovs m1 !! k)) ∧
    (useSecantPrecond_ (this m1) = true →
       ∃ sc, secant_ (this m1) = Some sc ∧ is_Some (secants m1 !! sc))).
Proof.
  intros Hk Hsc.
  destruct user as [[[k|] [sc|]]|]; cbn [construct];
    unfold NewtonKrylovStep_ctor, NewtonKrylovStep_ctor_user;
    repeat post_go; cbn in *; simplify_eq.
  all: repeat match goal with
         | H : _ && _ = _ |- _ =>
             rewrite ?andb_false_r, ?andb_true_r in H; cbn in H
         end; try done.
  all: split_and!; try done.
  all: try (intros; simplify_eq).
  all: try congruence.
  all: try (eexists; split; [reflexivity|]).
  all: first [ apply lookup_insert_is_Some'; by left | by eapply Hk | by eapply Hsc ].
Qed.

(** X4.  A constructed and initialised step is ready.  After either
    constructor (on supplied objects that exist), when the base class's
    [initialize] returns with the gradient and the descent vector of the
    step state and the iterate of the algorithm state in place, [initialize]
    returns, and every pointer that [compute] and [update] dereference is
    then valid: [krylov_] and, with the secant preconditioner on, [secant_]
    name the objects the constructor was given or built, and [gp_] names a
    vector. *)
Theorem initialize_makes_ready parlist user x s g obj (bnd : Bnd)
    (m m1 : machine) b :
  construct parlist user m = Some (tt, m1) →
  (∀ k sc, user = Some (Some k, sc) → is_Some (krylovs m !! k)) →
  (∀ k sc, user = Some (k, Some sc) → is_Some (secants m !! sc)) →
  Step_initialize x s g obj bnd (to_base m1) = Some b →
  (∃ gl, gradientVec (bv_state b) = Some gl ∧ is_Some (bv_heap b !! gl)) →
  (∃ d, descentVec (bv_state b) = Some d ∧ is_Some (bv_heap b !! d)) →
  (∃ it, iterateVec (bv_algo b) = Some it ∧ is_Some (bv_heap b !! it)) →
  is_Some (bv_heap b !! g) →
  ∃ m', initialize x s g obj bnd m1 = Some (tt, m') ∧ ready m'.
Proof.
  intros Hctor Hku Hscu Hbase (gl & Hgl & Hgla) (d & Hd & Hda) (it & Hit & Hita) Hg.
  destruct (construct_allocates parlist user m Hku Hscu _ _ Hctor)
    as (_ & _ & _ & _ & (k & Hk & Hka) & Hsec).
  apply wp_unit. unfold initialize.
  assert (Step_initialize_base x s g obj bnd m1 = Some (tt, of_base b m1)) as Hb.
  { unfold Step_initialize_base. by rewrite Hbase. }
  exists tt. unfold mbind at 1, M_bind at 1. rewrite Hb.
  change (∃ m', (m ← get;
                 if useSecantPrecond_ (this m)
                 then l ← vec_clone g; modify (set_this (with_gp_ (Some l)))
                 else mret tt) (of_base b m1) = Some (tt, m') ∧ ready m').
  apply wp_unit. apply wp_bind, wp_get.
  change (useSecantPrecond_ (this (of_base b m1)))
    with (useSecantPrecond_ (this m1)).
  destruct (useSecantPrecond_ (this m1)) eqn:Hu.
  - destruct Hsec as (sc & Hsc & Hsca); [done|].
    unfold vec_clone. repeat run_step.
    unfold ready, allocated; cbn. rewrite Hu, Hgl, Hd, Hit, Hk, Hsc.
    split_and!; try (eexists; split; [reflexivity|]); try is_some.
    intros _. split; eexists; (split; [reflexivity|]); by is_some.
  - apply wp_ret.
    unfold ready, allocated; cbn. rewrite Hu, Hgl, Hd, Hit, Hk.
    split_and!; try (eexists; split; [reflexivity|]); try done.
Qed.

(** ** compute *)

(** X5.  What [compute] touches.  Whenever [compute] returns, the algorithm
    state and the secant objects are as before, every vector but [s] holds
    what it held, every Krylov object but [krylov_] is as before, and of
    the members of the step object only [iterKrylov_] and [flagKrylov_] may
    have changed. *)
Theorem compute_writes_only_s s x obj (bnd : Bnd) (m m' : machine) :
  compute s x obj bnd m = Some (tt, m') →
  algo_state m' = algo_state m ∧ secants m' = secants m ∧
  (∀ l, l ≠ s → heap m' !! l = heap m !! l) ∧
  (∀ k, krylov_ (this m) ≠ Some k → krylovs m' !! k = krylovs m !! k) ∧
  this m' = with_flagKrylov_ (flagKrylov_ (this m'))
              (with_iterKrylov_ (iterKrylov_ (this m')) (this m)).
Proof.
  revert m'. cut (post (compute s x obj bnd) m (λ _ m',
    algo_state m' = algo_state m ∧ secants m' = secants m ∧
    (∀ l, l ≠ s → heap m' !! l = heap m !! l) ∧
    (∀ k, krylov_ (this m) ≠ Some k → krylovs m' !! k = krylovs m !! k) ∧
    this m' = with_flagKrylov_ (flagKrylov_ (this m'))
                (with_iterKrylov_ (iterKrylov_ (this m')) (this m)))).
  { intros Hp m' Hrun. exact (Hp _ _ Hrun). }
  unfold compute, compute_run_Krylov, Krylov_run.
  repeat post_go.
  eapply post_mono; [apply run_prog_post|].
  intros [[[Kst' d] it] fl] m1
    ((Hthis & Halgo & Hheap & Hk & Hsec) & _ & _).
  destruct m1; cbn in Hthis, Halgo, Hheap, Hk, Hsec; subst.
  repeat post_go; cbn in *; simplify_eq.
  all: split_and!; try done.
  all: try (intros l Hl; by rewrite !lookup_insert_ne by done).
  all: intros k' Hk'; rewrite lookup_insert_ne; [done | congruence].
Qed.

Lemma compute_run_Krylov_needs s x obj (bnd : Bnd) (m : machine) :
  post (compute_run_Krylov s x obj bnd) m (λ _ _,
    (∃ k, krylov_ (this m) = Some k ∧ is_Some (krylovs m !! k)) ∧
    (∃ g, gradientVec (state_ (this m)) = Some g ∧ allocated m g) ∧
    allocated m s ∧
    (useSecantPrecond_ (this m) = true → is_Some (secant_ (this m)))).
Proof.
  unfold compute_run_Krylov, Krylov_run, allocated.
  repeat post_go.
  all: eapply post_mono; [apply run_prog_post|].
  all: intros [[[Kst' d] it] fl] m1 _.
  all: repeat post_go; cbn in *; split_and!; eauto; intros; simplify_eq.
  all: match goal with
       | Hu : useSecantPrecond_ _ = true, H : (if _ then _ else _) = Some _
         |- is_Some ?o => rewrite Hu in H; destruct o; [eauto|done]
       end.
Qed.

(** X6.  [compute] needs its pointers.  [compute] returns only if [krylov_]
    and the gradient of the step state are not null and name existing
    objects, [s] exists, and [secant_] is not null when the secant
    preconditioner is on. *)
Theorem compute_returns_only_if s x obj (bnd : Bnd) (m m' : machine) :
  compute s x obj bnd m = Some (tt, m') →
  (∃ k, krylov_ (this m) = Some k ∧ is_Some (krylovs m !! k)) ∧
  (∃ g, gradientVec (state_ (this m)) = Some g ∧ allocated m g) ∧
  allocated m s ∧
  (useSecantPrecond_ (this m) = true → is_Some (secant_ (this m))).
Proof.
  intros Hrun. unfold compute in Hrun.
  apply bind_inv in Hrun as ([] & m1 & Hrun & _).
  exact (compute_run_Krylov_needs s x obj bnd m _ _ Hrun).
Qed.

(** X7.  The flag is reset.  What [compute] does is independent of the value
    [flagKrylov_] holds when it is called: the flag of an earlier solve
    never reaches the solver. *)
Theorem compute_resets_flag s x obj (bnd : Bnd) (m : machine) z :
  compute s x obj bnd (set_this (with_flagKrylov_ z) m) = compute s x obj bnd m.
Proof. reflexivity. Qed.

Lemma compute_retains s x obj (bnd : Bnd) (m : machine) d it fl :
  Krylov_result s x obj bnd m = Some (d, it, fl) →
  ∃ m', compute s x obj bnd m = Some (tt, m') ∧
        iterKrylov_ (this m') = it ∧ flagKrylov_ (this m') = fl.
Proof.
  intros Hres. unfold Krylov_result in Hres.
  destruct (compute_run_Krylov s x obj bnd m) as [[[] m1]|] eqn:Hrun; [|done].
  cbn in Hres. destruct (heap m1 !! s) as [d'|] eqn:Hs; [|done].
  cbn in Hres. injection Hres as -> Hiter Hflag.
  destruct (compute_run_Krylov_needs s x obj bnd m _ _ Hrun)
    as (_ & (g & Hg & Hga) & _ & _).
  destruct (compute_run_Krylov_post s x obj bnd m _ _ Hrun) as (Hst & d0 & Hh).
  rewrite <- Hst in Hg.
  assert (is_Some (heap m1 !! g)) as Hga1 by (rewrite Hh; is_some).
  assert (is_Some (heap m1 !! s)) as Hsa by eauto.
  unfold compute. rewrite (bind_run _ _ _ _ _ Hrun).
  apply wp_unit. apply wp_bind, wp_get. cbv zeta.
  destruct ((flagKrylov_ (this m1) =? 2) && (iterKrylov_ (this m1) <=? 1));
    repeat run_step; done.
Qed.

(** X8.  The solver's answer is kept.  Whenever the Krylov solver returns,
    [compute] returns too, and it leaves the solver's iteration count and
    flag in [iterKrylov_] and [flagKrylov_]. *)
Theorem compute_keeps_Krylov_result s x obj (bnd : Bnd) (m : machine) d it fl :
  Krylov_result s x obj bnd m = Some (d, it, fl) →
  ∃ m', compute s x obj bnd m = Some (tt, m') ∧
        iterKrylov_ (this m') = it ∧ flagKrylov_ (this m') = fl.
Proof. apply compute_retains. Qed.

Lemma operator_call_at (t : step) obj A P w f Hv v tol (m : machine) :
  A = HessianNK obj (iterateVec (algo_state m)) →
  (if useSecantPrecond_ t then ∃ sc, secant_ t = Some sc ∧ P = SecantOperator sc
   else P = PrecondNK obj (iterateVec (algo_state m))) →
  post (match f with
        | Apply => LinearOperator_apply (match w with OpA => A | OpM => P end) Hv v tol
        | ApplyInverse =>
            LinearOperator_applyInv (match w with OpA => A | OpM => P end) Hv v tol
        end) m
    (λ _ m1, ∃ evs, trace m1 = evs ++ trace m ∧
                    Forall (solve_event t obj (iterate_of m)) evs).
Proof.
  intros -> HP. unfold iterate_of.
  destruct (useSecantPrecond_ t) eqn:Hu; [destruct HP as (sc & Hsc & ->)|subst P].
  all: destruct w, f; cbn [LinearOperator_apply LinearOperator_applyInv].
  all: repeat post_go; cbn in *.
  all: first [ by exists []
             | eexists [_]; split; [reflexivity|];
               repeat constructor; cbn;
               repeat match goal with H : _ = Some _ |- _ => rewrite H end;
               done ].
Qed.

Lemma run_prog_at {R} (t : step) obj A P (p : KrylovProg Real V R) (m : machine) :
  A = HessianNK obj (iterateVec (algo_state m)) →
  (if useSecantPrecond_ t then ∃ sc, secant_ t = Some sc ∧ P = SecantOperator sc
   else P = PrecondNK obj (iterateVec (algo_state m))) →
  post (run_prog A P p) m
    (λ _ m1, ∃ evs, trace m1 = evs ++ trace m ∧
                    Forall (solve_event t obj (iterate_of m)) evs).
Proof.
  revert m. induction p as [r|w f Hv v tol k IH]; intros m HA HP; cbn [run_prog].
  - apply post_ret. by exists [].
  - apply post_bind. intros [Hv' tol'] m1 Hrun1.
    destruct (operator_call_post A P w f Hv v tol m _ _ Hrun1)
      as ((_ & Halgo & Hheap & _) & _).
    destruct (operator_call_at t obj A P w f Hv v tol m HA HP _ _ Hrun1)
      as (evs1 & Htr1 & Hev1).
    eapply post_mono; [apply IH; by rewrite Halgo|].
    intros r m2 (evs2 & Htr2 & Hev2). exists (evs2 ++ evs1). split.
    + by rewrite Htr2, Htr1, app_assoc.
    + apply Forall_app. split; [|done].
      replace (iterate_of m) with (iterate_of m1); [done|].
      unfold iterate_of. by rewrite Halgo, Hheap.
Qed.

(** X9.  Where the solve evaluates.  Whenever [compute] returns, the calls
    made since it was entered are one run of [krylov_] and, from inside that
    run, only these: the Hessian of [obj] at what the iterate of the
    algorithm state held on entry and, as the preconditioner, [obj]'s own at
    that same point when the secant preconditioner is off, the secant
    object of the step when it is on.  The objective is never asked for a
    value or a gradient. *)
Theorem compute_solves_at_iterate s x obj (bnd : Bnd) (m m' : machine) :
  compute s x obj bnd m = Some (tt, m') →
  ∃ k evs, krylov_ (this m) = Some k ∧
           trace m' = evs ++ EvKrylovRun k :: trace m ∧
           Forall (solve_event (this m) obj (iterate_of m)) evs.
Proof.
  revert m'. cut (post (compute s x obj bnd) m (λ _ m', ∃ k evs,
    krylov_ (this m) = Some k ∧ trace m' = evs ++ EvKrylovRun k :: trace m ∧
    Forall (solve_event (this m) obj (iterate_of m)) evs)).
  { intros Hp m' Hrun. exact (Hp _ _ Hrun). }
  unfold compute, compute_run_Krylov, Krylov_run.
  repeat post_go.
  all: eapply post_mono;
    [apply (run_prog_at (this m) obj);
     [cbn; congruence
     |cbn in *; destruct (useSecantPrecond_ (this m));
      [destruct (secant_ (this m)); cbn in *; simplify_eq; eauto
      |congruence]]|].
  all: intros [[[Kst' d] it] fl] m1 (evs & Htr & Hevs).
  all: repeat post_go; cbn in *; eexists _, evs; split_and!; eauto.
Qed.

(** ** update *)

Lemma insert_back (h : gmap loc V) k v l :
  is_Some (h !! k) → is_Some (<[k:=v]> h !! l) → is_Some (h !! l).
Proof. intros Hk [Heq|Hl]%lookup_insert_is_Some'; [by subst | done]. Qed.

(** A vector that exists after a store existed before it. *)
Ltac was_allocated :=
  solve [eauto] ||
  lazymatch goal with
  | |- is_Some (?h !! ?l) =>
      match goal with
      | H : ?h' !! l = Some _ |- _ =>
          match h' with
          | context [<[?k:=?v]> h] =>
              apply (insert_back h k v l); was_allocated
          end
      end
  end.

(** X10.  When [update] returns.  [update] returns exactly when every object
    it reaches is there: the vectors [x] and [s] and the objective, the
    gradient and the descent vector of the step state, the iterate of the
    algorithm state and, when the secant preconditioner is on, [gp_] and
    the secant object.  The Krylov solver is not among them. *)
Theorem update_returns_iff x s obj (bnd : Bnd) (m : machine) :
  (∃ m', update x s obj bnd m = Some (tt, m')) ↔ update_ok m x s obj.
Proof.
  split.
  - intros [m' Hrun]. revert m' Hrun.
    cut (post (update x s obj bnd) m (λ _ _, update_ok m x s obj)).
    { intros Hp m' Hrun. exact (Hp _ _ Hrun). }
    unfold update, update_ok, allocated.
    repeat post_go; cbn in *; simplify_eq.
    all: split_and!; try (intros; simplify_eq);
      repeat match goal with
      | |- ∃ _, _ => eexists
      | |- _ ∧ _ => split
      | |- _ = Some _ => eassumption
      end; try was_allocated.
  - intros (Hx & Hs & Ho & (g & Hg & Hga) & (d & Hd & Hda) & (it & Hit & Hita)
            & Hsec).
    cut (wp (update x s obj bnd) m (λ _ _, True)).
    { intros ([] & m' & ? & _). eauto. }
    unfold allocated in *. unfold update.
    destruct (useSecantPrecond_ (this m)) eqn:Hu.
    + destruct Hsec as ((gp & Hgp & Hgpa) & (sc & Hsc & Hsca)); [done|].
      repeat run_step. done.
    + repeat run_step. done.
Qed.


(** X11.  What [update] touches.  Whenever [update] returns, the step object
    and the Krylov objects are as before; every vector but [x], the
    gradient, the descent vector, the iterate and [gp_] holds what it held;
    every objective but [obj] and every secant object but [secant_] is as
    before; and of the algorithm state [nfval] is as before. *)
Theorem update_writes_only x s obj (bnd : Bnd) (m m' : machine) :
  update x s obj bnd m = Some (tt, m') →
  this m' = this m ∧ krylovs m' = krylovs m ∧
  nfval (algo_state m') = nfval (algo_state m) ∧
  iterateVec (algo_state m') = iterateVec (algo_state m) ∧
  (∀ l, l ≠ x → gradientVec (state_ (this m)) ≠ Some l →
        descentVec (state_ (this m)) ≠ Some l →
        iterateVec (algo_state m) ≠ Some l → gp_ (this m) ≠ Some l →
        heap m' !! l = heap m !! l) ∧
  (∀ o, o ≠ obj → objectives m' !! o = objectives m !! o) ∧
  (∀ sc, secant_ (this m) ≠ Some sc → secants m' !! sc = secants m !! sc).
Proof.
  revert m'. cut (post (update x s obj bnd) m (λ _ m',
    this m' = this m ∧ krylovs m' = krylovs m ∧
    nfval (algo_state m') = nfval (algo_state m) ∧
    iterateVec (algo_state m') = iterateVec (algo_state m) ∧
    (∀ l, l ≠ x → gradientVec (state_ (this m)) ≠ Some l →
          descentVec (state_ (this m)) ≠ Some l →
          iterateVec (algo_state m) ≠ Some l → gp_ (this m) ≠ Some l →
          heap m' !! l = heap m !! l) ∧
    (∀ o, o ≠ obj → objectives m' !! o = objectives m !! o) ∧
    (∀ sc, secant_ (this m) ≠ Some sc → secants m' !! sc = secants m !! sc))).
  { intros Hp m' Hrun. exact (Hp _ _ Hrun). }
  unfold update.
  repeat post_go; cbn in *; simplify_eq.
  all: split_and!; try done.
  all: try (intros l ? ? ? ? ?; rewrite !lookup_insert_ne by congruence; done).
  all: try (intros o' ?; rewrite !lookup_insert_ne by congruence; done).
Qed.

(** X12.  The step is recorded.  On vectors that are separated, whenever
    [update] returns, [s] still holds the step [sv], the descent vector of
    the step state holds a copy of it, and [snorm] is its norm. *)
Theorem update_records_step x s obj (bnd : Bnd) (m m' : machine) g d it sv :
  separated m x s g d it →
  heap m !! s = Some sv →
  update x s obj bnd m = Some (tt, m') →
  heap m' !! s = Some sv ∧ heap m' !! d = Some sv ∧
  snorm (algo_state m') = v_norm sv.
Proof.
  intros (Hg & Hd & Hit & Hxs & Hxg & Hxd & Hsg & Hsd & Hgd & His & Hig & Hid & Hgp)
         Hs.
  revert m'. cut (post (update x s obj bnd) m (λ _ m',
    heap m' !! s = Some sv ∧ heap m' !! d = Some sv ∧
    snorm (algo_state m') = v_norm sv)).
  { intros Hp m' Hrun. exact (Hp _ _ Hrun). }
  unfold update.
  repeat post_go; cbn in *; simplify_eq.
  all: try (match goal with H : gp_ _ = Some _ |- _ =>
              destruct (Hgp _ H) as (? & ? & ? & ? & ?) end).
  all: simplify_map_eq; done.
Qed.

(** X13.  What the secant object is given.  With the secant preconditioner
    on and separated vectors, whenever [update] returns, [gp_] holds the
    gradient [gv] of before the call, and the secant object is the old one
    updated with the new iterate, the new gradient, [gv], the step, the
    norm of the step, and the iteration number of the algorithm state
    after the call plus one, which is two more than before the call. *)
Theorem update_secant_storage x s obj (bnd : Bnd) (m m' : machine)
    g d it gp sc xv sv gv B :
  separated m x s g d it →
  useSecantPrecond_ (this m) = true →
  gp_ (this m) = Some gp → secant_ (this m) = Some sc →
  heap m !! x = Some xv → heap m !! s = Some sv → heap m !! g = Some gv →
  secants m !! sc = Some B →
  update x s obj bnd m = Some (tt, m') →
  ∃ gnew,
    heap m' !! g = Some gnew ∧ heap m' !! gp = Some gv ∧
    iter (algo_state m') = iter (algo_state m) + 1 ∧
    secants m' !! sc =
      Some (secant_updateStorage B (v_axpy R_one sv xv) gnew gv sv (v_norm sv)
              (iter (algo_state m) + 2)).
Proof.
  intros (Hg & Hd & Hit & Hxs & Hxg & Hxd & Hsg & Hsd & Hgd & His & Hig & Hid & Hgp)
         Hu Hgp' Hsc Hx Hs Hgv HB.
  destruct (Hgp _ Hgp') as (Hgpx & Hgps & Hgpg & Hgpd & Hgpi).
  revert m'. cut (post (update x s obj bnd) m (λ _ m', ∃ gnew,
    heap m' !! g = Some gnew ∧ heap m' !! gp = Some gv ∧
    iter (algo_state m') = iter (algo_state m) + 1 ∧
    secants m' !! sc =
      Some (secant_updateStorage B (v_axpy R_one sv xv) gnew gv sv (v_norm sv)
              (iter (algo_state m) + 2)))).
  { intros Hp m' Hrun. exact (Hp _ _ Hrun). }
  unfold update.
  repeat post_go; cbn in *; simplify_eq.
  simplify_map_eq.
  eexists. split_and!; try done.
  by replace (iter (algo_state m) + 1 + 1) with (iter (algo_state m) + 2) by lia.
Qed.


(** ** The columns of the status line *)

Lemma length_append (a b : string) :
  String.length (a +:+ b) = (String.length a + String.length b)%nat.
Proof.
  induction a as [|c a IH]; [done|].
  change (Datatypes.S (String.length (a +:+ b))
          = Datatypes.S (String.length a + String.length b)).
  by rewrite IH.
Qed.

Lemma length_string_of_char n c : String.length (string_of_char n c) = n.
Proof. induction n as [|n IH]; [done|]. cbn. by rewrite IH. Qed.

Lemma length_setw_left n (f : string) :
  (String.length f ≤ n)%nat → String.length (setw_left n f) = n.
Proof.
  intros Hf. unfold setw_left. rewrite length_append, length_string_of_char. lia.
Qed.

Lemma substring_here (f rest : string) :
  substring 0 (String.length f) (f +:+ rest) = f.
Proof.
  induction f as [|c f IH].
  - by destruct rest.
  - change (String c (substring 0 (String.length f) (f +:+ rest)) = String c f).
    by rewrite IH.
Qed.

Lemma substring_skip (pre out : string) c n :
  substring (String.length pre + c) n (pre +:+ out) = substring c n out.
Proof. induction pre as [|a pre IH]; [done|]. exact IH. Qed.

Lemma at_column_after (pre out : string) c f :
  at_column out c f → at_column (pre +:+ out) (String.length pre + c) f.
Proof. unfold at_column. by rewrite substring_skip. Qed.

(** Cells that fit their widths start where the widths say. *)
Lemma row_aligned ws fs (pre tail : string) :
  fit fs ws →
  Forall2 (at_column (pre +:+ row ws fs tail)) (starts (String.length pre) ws) fs.
Proof.
  intros Hfit. revert pre.
  induction Hfit as [|f w fs ws Hf Hfit IH]; intros pre; cbn [row starts].
  { constructor. }
  constructor.
  - rewrite <- (Nat.add_0_r (String.length pre)). apply at_column_after.
    unfold at_column, setw_left. rewrite string_append_assoc.
    apply substring_here.
  - rewrite <- string_append_assoc.
    replace (String.length pre + w)%nat
      with (String.length (pre +:+ setw_left w f))
      by (by rewrite length_append, length_setw_left).
    apply IH.
Qed.

Lemma length_row ws fs (tail : string) :
  fit fs ws →
  String.length (row ws fs tail) = (foldr Nat.add (String.length tail) ws)%nat.
Proof.
  induction 1 as [|f w fs ws Hf Hfit IH]; cbn [row foldr]; [done|].
  by rewrite length_append, length_setw_left, IH.
Qed.

(** X14.  The fields stand under their titles.  The last line of
    [printHeader] is the line of column titles.  When [iter] is not 0 and
    every field fits its column, the line that [print] writes after the
    optional header is as long as the line of titles, and each of its eight
    fields starts at the column where its title starts: columns 2, 8, 23,
    38, 53, 63, 73 and 83. *)
Theorem print_columns_aligned (t : step) (a : AlgorithmState Real) (h : bool) :
  iter a ≠ 0 →
  fit (fields t a) widths →
  ∃ intro line,
    printHeader t = intro +:+ column_titles ∧
    print t a h = (if h then printHeader t else EmptyString) +:+ line ∧
    String.length line = String.length column_titles ∧
    Forall2 (at_column column_titles) (starts 2 widths) titles ∧
    Forall2 (at_column line) (starts 2 widths) (fields t a).
Proof.
  intros Hit%Z.eqb_neq Hfit.
  exists (if 0 <? verbosity_ t then
            string_of_char 109 "-" +:+ nl +:+
            EDescentToString_DESCENT_NEWTONKRYLOV +:+
            " status output definitions" +:+ nl +:+ nl +:+
            "  iter     - Number of iterates (steps taken) " +:+ nl +:+
            "  value    - Objective function value " +:+ nl +:+
            "  gnorm    - Norm of the gradient" +:+ nl +:+
            "  snorm    - Norm of the step (update to optimization vector)" +:+ nl +:+
            "  #fval    - Cumulative number of times the objective function was evaluated" +:+ nl +:+
            "  #grad    - Number of times the gradient was computed" +:+ nl +:+
            "  iterCG   - Number of Krylov iterations used to compute search direction" +:+ nl +:+
            "  flagCG   - Krylov solver flag" +:+ nl +:+
            string_of_char 109 "-" +:+ nl
          else EmptyString),
         ("  " +:+ row widths (fields t a) nl).
  split_and!.
  - reflexivity.
  - unfold print. rewrite Hit. reflexivity.
  - rewrite length_append, (length_row _ _ _ Hfit). reflexivity.
  - change column_titles with ("  " +:+ row widths titles nl).
    apply (row_aligned widths titles "  " nl).
    unfold fit, titles, widths. repeat constructor.
  - apply (row_aligned widths (fields t a) "  " nl Hfit).
Qed.

(** X15.  The line of iteration 0.  When [iter] is 0 and the three fields
    fit their columns, what [print] writes is the line of [printName], the
    optional header, and a line on which the three fields start at columns
    2, 8 and 23. *)
Theorem print_first_line (t : step) (a : AlgorithmState Real) (h : bool) :
  iter a = 0 →
  fit (fields0 a) widths0 →
  ∃ line,
    print t a h
      = printName t +:+ (if h then printHeader t else EmptyString) +:+ line ∧
    Forall2 (at_column line) (starts 2 widths0) (fields0 a).
Proof.
  intros Hit%Z.eqb_eq Hfit.
  exists ("  " +:+ row widths0 (fields0 a) nl). split.
  - unfold print. rewrite Hit. reflexivity.
  - apply (row_aligned widths0 (fields0 a) "  " nl Hfit).
Qed.



(** ** A whole step *)

(** X17.  The status line reports the solve behind the step.  After [compute]
    and then [update], whenever both return, the line that [print] writes
    shows the iteration count and the flag that the Krylov solver returned
    in that [compute], and the iteration number of the algorithm state, one
    more than before.  (The counter was not -1 before: at 0 afterwards
    [print] leaves these columns out.) *)
Theorem print_shows_Krylov_result s x obj (bnd : Bnd) (m m' : machine) d it fl h :
  Krylov_result s x obj bnd m = Some (d, it, fl) →
  (compute s x obj bnd;; update x s obj bnd) m = Some (tt, m') →
  iter (algo_state m) ≠ -1 →
  let out := print (this m') (algo_state m') h in
  occurs (pretty it) out = true ∧ occurs (pretty fl) out = true ∧
  occurs (pretty (iter (algo_state m) + 1)) out = true.
Proof.
  intros Hres Hrun Hne.
  apply bind_inv in Hrun as ([] & m1 & Hc & Hupd).
  destruct (compute_retains s x obj bnd m d it fl Hres) as (m1' & Hc' & Hi & Hf).
  assert (m1' = m1) as -> by congruence.
  pose proof (compute_post s x obj bnd m _ _ Hc) as (_ & Halgo & _).
  pose proof (update_post x s obj bnd m1 _ _ Hupd) as (_ & Hthis & _ & Hiter & _).
  cbv zeta. unfold print. rewrite Hthis, Hi, Hf, Hiter, Halgo.
  assert ((iter (algo_state m) + 1 =? 0) = false) as -> by lia.
  split_and!; find_field.
Qed.

End Properties.

(** * The properties on the sample instance *)

Module SampleRuns.
Import Sample.

Local Open Scope positive_scope.

(** A constructed and initialised sample step is ready. *)
Ltac sample_ready :=
  unfold ready, allocated; cbn;
  repeat first [ discriminate | reflexivity | split | eexists | intros _ ].

(** Constructing a step and initialising it makes it ready, with or
    without the secant preconditioner. *)
Example constructed_and_initialised_is_ready (pl : PList) :
  pl = no_secant ∨ pl = use_secant →
  ∃ m, (construct pl None ;; initialize 1 2 3 1 tt) (start [2; 0]%Z exact)
         = Some (tt, m) ∧ ready m.
Proof.
  intros [-> | ->]; eexists; (split; [vm_compute; reflexivity|]); sample_ready.
Qed.

(** The scenario of the specification: from [x0 = (2,0)], with the exact
    solver, [compute] returns [s = (-2,0)] and [update] moves the iterate to
    [(0,0)], where the value and the gradient norm are 0 and [iter] is 1. *)
Example quadratic_scenario :
  (λ r, (heap r.2 !! 2, heap r.2 !! 4, value (algo_state r.2),
         gnorm (algo_state r.2), iter (algo_state r.2)))
    <$> (compute 2 1 1 tt ;; update 1 2 1 tt)
          (initialised false [2; 0] [0; 0] [2; 0] exact)%Z
  = Some (Some [-2; 0], Some [0; 0], 0, 0, 1)%Z.
Proof. vm_compute. reflexivity. Qed.

Lemma compute_fallback_witness :
  ∃ m', compute 2 1 1 tt (initialised false [2; 0] [0; 0] [2; 0] (canned [7; 7] 1 2))%Z
          = Some (tt, m') ∧
        heap m' !! 2 = Some [-2; 0]%Z ∧ heap m' !! 5 = Some [2; 0]%Z.
Proof.
  refine (compute_fallback 2 1 1 tt
           (initialised false [2; 0] [0; 0] [2; 0] (canned [7; 7] 1 2))%Z
           [7; 7]%Z 1%Z 5 [2; 0]%Z _ _ _ _ _);
    [vm_compute; reflexivity | lia | reflexivity | reflexivity | discriminate].
Defined.

Lemma compute_negative_curvature_after_progress_witness :
  ∃ m', compute 2 1 1 tt (initialised false [2; 0] [0; 0] [2; 0] (canned [7; 7] 3 2))%Z
          = Some (tt, m') ∧
        heap m' !! 2 = Some [-7; -7]%Z.
Proof.
  refine (compute_negative_curvature_after_progress 2 1 1 tt
           (initialised false [2; 0] [0; 0] [2; 0] (canned [7; 7] 3 2))%Z
           [7; 7]%Z 3%Z _ _);
    [vm_compute; reflexivity | lia].
Defined.

Lemma scale_minus_one_twice (v : list Z) :
  v_scale R_minus_one (v_scale R_minus_one v) = v.
Proof.
  induction v as [|z v IH]; [done|]. cbn in *. rewrite IH. f_equal. lia.
Qed.

Lemma compute_negates_Krylov_direction_witness :
  ∃ m', compute 2 1 1 tt (initialised true [2; 0] [0; 0] [2; 0] exact)%Z
          = Some (tt, m') ∧
        heap m' !! 2 = Some [-2; 0]%Z ∧
        v_scale R_minus_one <$> heap m' !! 2 = Some [2; 0]%Z.
Proof.
  destruct (compute_negates_Krylov_direction 2 1 1 tt
              (initialised true [2; 0] [0; 0] [2; 0] exact)%Z [2; 0]%Z 1%Z 0%Z)
    as (m' & Hrun & Hs & Hback); [vm_compute; reflexivity | lia |].
  exists m'. split; [exact Hrun|]. split; [exact Hs|].
  exact (Hback scale_minus_one_twice).
Defined.

Lemma update_state_consistent_witness :
  ∃ m' gin,
    update 1 2 1 tt (initialised true [2; 0] [-2; 0] [2; 0] exact)%Z = Some (tt, m') ∧
    let xnew := v_axpy R_one [-2; 0]%Z [2; 0]%Z in
    let o1 := obj_update 0%nat xnew true (0 + 1)%Z in
    let '(o2, val, tol1) := obj_value o1 xnew sqrt_ROL_EPSILON in
    let '(o3, gnew, tol2) := obj_gradient o2 gin xnew tol1 in
    heap m' !! 4 = Some xnew ∧ heap m' !! 1 = Some xnew ∧
    heap m' !! 5 = Some gnew ∧
    value (algo_state m') = val ∧ gnorm (algo_state m') = v_norm gnew.
Proof.
  refine (update_state_consistent 1 2 1 tt
           (initialised true [2; 0] [-2; 0] [2; 0] exact)%Z
           [2; 0]%Z [-2; 0]%Z 0%nat 4 5 _ _ _ _ _ _ _ _);
    [sample_ready | reflexivity | reflexivity | reflexivity
    | unfold private_vec; cbn; intros [|[|]]; discriminate
    | reflexivity | reflexivity | discriminate].
Defined.

Lemma update_counters_witness :
  ∃ m', calls [CallCompute 2 1 1 tt; CallUpdate 1 2 1 tt;
               CallCompute 2 1 1 tt; CallUpdate 1 2 1 tt]
          (initialised true [2; 0] [0; 0] [2; 0] exact)%Z = Some (tt, m') ∧
        iter (algo_state m') = 2%Z ∧ ngrad (algo_state m') = 2%Z.
Proof.
  refine (update_counters
           [CallCompute 2 1 1 tt; CallUpdate 1 2 1 tt;
            CallCompute 2 1 1 tt; CallUpdate 1 2 1 tt]
           (initialised true [2; 0] [0; 0] [2; 0] exact)%Z _ _ _ _);
    [sample_ready | repeat constructor; sample_ready | reflexivity | reflexivity].
Defined.

Lemma update_does_not_count_value_witness :
  let m := (initialised false [2; 0] [-2; 0] [2; 0] exact)%Z in
  ∃ m' evs xpt gin,
    update 1 2 1 tt m = Some (tt, m') ∧
    (¬ private_vec m 1 → xpt = v_axpy R_one [-2; 0]%Z [2; 0]%Z) ∧
    (let o1 := obj_update 0%nat xpt true (iter (algo_state m) + 1)%Z in
     let '(o2, val, tol1) := obj_value o1 xpt sqrt_ROL_EPSILON in
     let '(o3, gnew, tol2) := obj_gradient o2 gin xpt tol1 in
     value (algo_state m') = val ∧ objectives m' !! 1 = Some o3) ∧
    trace m' = (evs ++ trace m)%list ∧
    count (value_event 1) evs = 1%nat ∧
    nfval (algo_state m') = nfval (algo_state m) ∧
    ngrad (algo_state m') = (ngrad (algo_state m) + 1)%Z.
Proof.
  intros m.
  refine (update_does_not_count_value 1 2 1 tt m [2; 0]%Z [-2; 0]%Z 0%nat _ _ _ _);
    [sample_ready | reflexivity | reflexivity | reflexivity].
Defined.

Lemma secant_gating_witness :
  ∃ m', (construct no_secant None ;;
         calls [CallInitialize 1 2 3 1 tt; CallCompute 2 1 1 tt;
                CallUpdate 1 2 1 tt]) (start [2; 0]%Z exact) = Some (tt, m') ∧
        secants m' = secants (start [2; 0]%Z exact) ∧ gp_ (this m') = None ∧
        ∃ evs, trace m' = (evs ++ [])%list ∧ forallb secant_free evs = true.
Proof.
  eexists. split; [vm_compute; reflexivity|].
  refine (secant_gating no_secant None
            [CallInitialize 1 2 3 1 tt; CallCompute 2 1 1 tt; CallUpdate 1 2 1 tt]
            (start [2; 0]%Z exact) _ _ _); [reflexivity | vm_compute; reflexivity].
Defined.

Lemma user_objects_are_used_witness :
  ∃ m' m2,
    (NewtonKrylovStep_ctor_user use_secant (Some 1) (Some 1) ;;
     calls [CallInitialize 1 2 3 1 tt; CallCompute 2 1 1 tt;
            CallUpdate 1 2 1 tt; CallCompute 2 1 1 tt])
      (start [2; 0]%Z exact) = Some (tt, m') ∧
    compute 2 1 1 tt m' = Some (tt, m2) ∧
    (∃ evs, trace m' = (evs ++ [])%list ∧
       (∀ k, Some 1 = Some k →
          krylov_ (this m') = Some k ∧ forallb (only_krylov k) evs = true ∧
          count (krylov_run_event k) evs = 2%nat) ∧
       (∀ sc, Some 1 = Some sc →
          secant_ (this m') = Some sc ∧ forallb (only_secant sc) evs = true)) ∧
    ∃ k Kst sv g gv P Kst' d it fl mr,
      krylov_ (this m') = Some k ∧ (∀ k', Some 1 = Some k' → k' = k) ∧
      krylovs m' !! k = Some Kst ∧
      heap m' !! 2 = Some sv ∧
      gradientVec (state_ (this m')) = Some g ∧ heap m' !! g = Some gv ∧
      precond_of m' 1 = Some P ∧
      (∀ sc, Some 1 = Some sc → useSecantPrecond_ (this m') = true →
         P = SecantOperator sc ∧
         ∀ B Hv v tol (mm : machine), secants mm !! sc = Some B →
           LinearOperator_apply P Hv v tol mm
             = Some (secant_apply B Hv v tol,
                     set_trace (cons (EvSecantApply sc)) mm) ∧
           LinearOperator_applyInv P Hv v tol mm
             = Some (secant_applyInverse B Hv v tol,
                     set_trace (cons (EvSecantApplyInverse sc)) mm)) ∧
      run_prog (HessianNK 1 (iterateVec (algo_state m'))) P
        (krylov_run Kst sv gv (iterKrylov_ (this m')) 0%Z)
        (set_trace (cons (EvKrylovRun k)) (set_this (with_flagKrylov_ 0%Z) m'))
        = Some (Kst', d, it, fl, mr) ∧
      krylovs m2 !! k = Some Kst' ∧
      iterKrylov_ (this m2) = it ∧ flagKrylov_ (this m2) = fl ∧
      heap m2 !! 2 =
        Some (v_scale R_minus_one
                (if ((fl =? 2) && (it <=? 1))%Z
                 then v_dual (if decide (2 = g) then d else gv) else d)).
Proof.
  eexists _, _. split; [vm_compute; reflexivity|].
  split; [vm_compute; reflexivity|].
  split.
  - refine (proj1 (user_objects_are_used use_secant (Some 1) (Some 1)
              [CallInitialize 1 2 3 1 tt; CallCompute 2 1 1 tt;
               CallUpdate 1 2 1 tt; CallCompute 2 1 1 tt]
              (start [2; 0]%Z exact) _ _)); vm_compute; reflexivity.
  - refine (proj2 (user_objects_are_used use_secant (Some 1) (Some 1)
              [CallInitialize 1 2 3 1 tt; CallCompute 2 1 1 tt;
               CallUpdate 1 2 1 tt; CallCompute 2 1 1 tt]
              (start [2; 0]%Z exact) _ _) 2 1 1 tt _ _); vm_compute; reflexivity.
Defined.

(** At iteration 0 the status line has three fields only:
    the step norm 3, the counters 4 and 5, the Krylov iteration count 6 and
    the flag 7 are not in it. *)
Lemma print_at_iteration_0 :
  print shown_step (shown_state 0%Z) false
  = (nl +:+ "Newton-Krylov using Conjugate Gradients" +:+ nl +:+
     "  0     1              2              " +:+ nl)%string.
Proof. vm_compute. reflexivity. Qed.

Lemma print_omits_fields_at_iteration_0 :
  all_occur (fields shown_step (shown_state 0%Z))
    (print shown_step (shown_state 0%Z) false) = false.
Proof. vm_compute. reflexivity. Qed.

Lemma print_fields_witness :
  all_occur (fields shown_step (shown_state 8%Z))
    (print shown_step (shown_state 8%Z) true) = true ∧
  (print shown_step (shown_state 0%Z) true =
     (printName shown_step +:+ printHeader shown_step +:+
      "  " +:+
      setw_left 6 (pretty (iter (shown_state 0%Z))) +:+
      setw_left 15 (show_Real (value (shown_state 0%Z))) +:+
      setw_left 15 (show_Real (gnorm (shown_state 0%Z))) +:+ nl)%string ∧
   all_occur (fields0 (shown_state 0%Z))
     (print shown_step (shown_state 0%Z) true) = true ∧
   ∀ t' a',
     iter a' = 0%Z → value a' = value (shown_state 0%Z) →
     gnorm a' = gnorm (shown_state 0%Z) →
     printName t' = printName shown_step →
     printHeader t' = printHeader shown_step →
     print t' a' true = print shown_step (shown_state 0%Z) true).
Proof.
  split.
  - refine (proj1 (print_fields shown_step (shown_state 8%Z) true) _). discriminate.
  - refine (proj2 (print_fields shown_step (shown_state 0%Z) true) _). reflexivity.
Defined.

Lemma compute_ignores_x_witness :
  compute 2 1 1 tt (initialised false [2; 0] [0; 0] [2; 0] exact)%Z
  = compute 2 3 1 tt (initialised false [2; 0] [0; 0] [2; 0] exact)%Z ∧
  compute 2 1 1 tt (poke 1 [9; 9]%Z (initialised false [2; 0] [0; 0] [2; 0] exact)%Z)
  = (λ '(a, m'), (a, poke 1 [9; 9]%Z m'))
      <$> compute 2 1 1 tt (initialised false [2; 0] [0; 0] [2; 0] exact)%Z.
Proof.
  split.
  - refine (proj1 (compute_ignores_x 2 1 tt
                     (initialised false [2; 0] [0; 0] [2; 0] exact)%Z) 1 3).
  - refine (proj2 (compute_ignores_x 2 1 tt
                     (initialised false [2; 0] [0; 0] [2; 0] exact)%Z)
              1 [9; 9]%Z _ _ _); discriminate.
Defined.

(** ** The further properties *)


Lemma solver_members_not_null_witness :
  ∃ m', (construct use_secant None ;;
         calls [CallInitialize 1 2 3 1 tt; CallCompute 2 1 1 tt;
                CallUpdate 1 2 1 tt]) (start [2; 0]%Z exact) = Some (tt, m') ∧
        is_Some (krylov_ (this m')) ∧
        useSecantPrecond_ (this m') = use_as_preconditioner use_secant ∧
        (useSecantPrecond_ (this m') = true → is_Some (secant_ (this m'))).
Proof.
  eexists. split; [vm_compute; reflexivity|].
  refine (solver_members_not_null use_secant None
            [CallInitialize 1 2 3 1 tt; CallCompute 2 1 1 tt; CallUpdate 1 2 1 tt]
            (start [2; 0]%Z exact) _ _); vm_compute; reflexivity.
Defined.

Lemma initialize_makes_ready_witness :
  ∃ m1, construct use_secant None (start [2; 0]%Z exact) = Some (tt, m1) ∧
        ∃ m', initialize 1 2 3 1 tt m1 = Some (tt, m') ∧ ready m'.
Proof.
  eexists. split; [vm_compute; reflexivity|].
  refine (initialize_makes_ready use_secant None 1 2 3 1 tt
            (start [2; 0]%Z exact) _ _ _ _ _ _ _ _ _ _);
    [ vm_compute; reflexivity | discriminate | discriminate
    | vm_compute; reflexivity
    | eexists; split; [reflexivity | vm_compute; eauto]
    | eexists; split; [reflexivity | vm_compute; eauto]
    | eexists; split; [reflexivity | vm_compute; eauto]
    | vm_compute; eauto ].
Defined.

Lemma compute_writes_only_s_witness :
  let m := (initialised true [2; 0] [0; 0] [2; 0] exact)%Z in
  ∃ m', compute 2 1 1 tt m = Some (tt, m') ∧
        algo_state m' = algo_state m ∧ secants m' = secants m ∧
        (∀ l, l ≠ 2 → heap m' !! l = heap m !! l) ∧
        (∀ k, krylov_ (this m) ≠ Some k → krylovs m' !! k = krylovs m !! k) ∧
        this m' = with_flagKrylov_ (flagKrylov_ (this m'))
                    (with_iterKrylov_ (iterKrylov_ (this m')) (this m)).
Proof.
  intros m. eexists. split; [vm_compute; reflexivity|].
  refine (compute_writes_only_s 2 1 1 tt m _ _); vm_compute; reflexivity.
Defined.

Lemma compute_returns_only_if_witness :
  let m := (initialised true [2; 0] [0; 0] [2; 0] exact)%Z in
  ∃ m', compute 2 1 1 tt m = Some (tt, m') ∧
        (∃ k, krylov_ (this m) = Some k ∧ is_Some (krylovs m !! k)) ∧
        (∃ g, gradientVec (state_ (this m)) = Some g ∧ allocated m g) ∧
        allocated m 2 ∧
        (useSecantPrecond_ (this m) = true → is_Some (secant_ (this m))).
Proof.
  intros m. eexists. split; [vm_compute; reflexivity|].
  refine (compute_returns_only_if 2 1 1 tt m _ _); vm_compute; reflexivity.
Defined.

Lemma compute_keeps_Krylov_result_witness :
  ∃ m', compute 2 1 1 tt
          (initialised false [2; 0] [0; 0] [2; 0] (canned [7; 7] 3 2))%Z
          = Some (tt, m') ∧
        iterKrylov_ (this m') = 3%Z ∧ flagKrylov_ (this m') = 2%Z.
Proof.
  refine (compute_keeps_Krylov_result 2 1 1 tt
            (initialised false [2; 0] [0; 0] [2; 0] (canned [7; 7] 3 2))%Z
            [7; 7]%Z 3%Z 2%Z _); vm_compute; reflexivity.
Defined.

Lemma compute_solves_at_iterate_witness :
  let m := (initialised true [2; 0] [0; 0] [2; 0] exact)%Z in
  ∃ m', compute 2 1 1 tt m = Some (tt, m') ∧
        ∃ k evs, krylov_ (this m) = Some k ∧
                 trace m' = (evs ++ EvKrylovRun k :: trace m)%list ∧
                 Forall (solve_event (this m) 1 (iterate_of m)) evs.
Proof.
  intros m. eexists. split; [vm_compute; reflexivity|].
  refine (compute_solves_at_iterate 2 1 1 tt m _ _); vm_compute; reflexivity.
Defined.

Lemma update_writes_only_witness :
  let m := (initialised true [2; 0] [-2; 0] [2; 0] exact)%Z in
  ∃ m', update 1 2 1 tt m = Some (tt, m') ∧
        this m' = this m ∧ krylovs m' = krylovs m ∧
        nfval (algo_state m') = nfval (algo_state m) ∧
        iterateVec (algo_state m') = iterateVec (algo_state m) ∧
        (∀ l, l ≠ 1 → gradientVec (state_ (this m)) ≠ Some l →
              descentVec (state_ (this m)) ≠ Some l →
              iterateVec (algo_state m) ≠ Some l → gp_ (this m) ≠ Some l →
              heap m' !! l = heap m !! l) ∧
        (∀ o, o ≠ 1 → objectives m' !! o = objectives m !! o) ∧
        (∀ sc, secant_ (this m) ≠ Some sc → secants m' !! sc = secants m !! sc).
Proof.
  intros m. eexists. split; [vm_compute; reflexivity|].
  refine (update_writes_only 1 2 1 tt m _ _); vm_compute; reflexivity.
Defined.

(** The vectors of an initialised sample step are separated. *)
Ltac sample_separated :=
  unfold separated; cbn; split_and!; try done; intros ? [= <-]; done.

Lemma update_records_step_witness :
  let m := (initialised true [2; 0] [-2; 0] [2; 0] exact)%Z in
  ∃ m', update 1 2 1 tt m = Some (tt, m') ∧
        heap m' !! 2 = Some [-2; 0]%Z ∧ heap m' !! 6 = Some [-2; 0]%Z ∧
        snorm (algo_state m') = v_norm [-2; 0]%Z.
Proof.
  intros m. eexists. split; [vm_compute; reflexivity|].
  refine (update_records_step 1 2 1 tt m _ 5 6 4 [-2; 0]%Z _ _ _);
    [sample_separated | reflexivity | vm_compute; reflexivity].
Defined.

Lemma update_secant_storage_witness :
  let m := (initialised true [2; 0] [-2; 0] [2; 0] exact)%Z in
  ∃ m' gnew,
    update 1 2 1 tt m = Some (tt, m') ∧
    heap m' !! 5 = Some gnew ∧ heap m' !! 7 = Some [2; 0]%Z ∧
    iter (algo_state m') = (iter (algo_state m) + 1)%Z ∧
    secants m' !! 1 =
      Some (secant_updateStorage [] (v_axpy R_one [-2; 0] [2; 0])%Z gnew
              [2; 0]%Z [-2; 0]%Z (v_norm [-2; 0]%Z) (iter (algo_state m) + 2)%Z).
Proof.
  intros m.
  assert (∃ m', update 1 2 1 tt m = Some (tt, m')) as [m' Hrun].
  { eexists. vm_compute. reflexivity. }
  destruct (update_secant_storage 1 2 1 tt m m' 5 6 4 7 1
              [2; 0]%Z [-2; 0]%Z [2; 0]%Z [])
    as (gnew & H); [sample_separated | reflexivity.. | exact Hrun |].
  exists m', gnew. by split.
Defined.

Lemma print_columns_aligned_witness :
  ∃ intro line,
    printHeader shown_step = (intro +:+ column_titles)%string ∧
    print shown_step (shown_state 1%Z) false = (EmptyString +:+ line)%string ∧
    String.length line = String.length column_titles ∧
    Forall2 (at_column column_titles) (starts 2 widths) titles ∧
    Forall2 (at_column line) (starts 2 widths)
      (fields shown_step (shown_state 1%Z)).
Proof.
  refine (print_columns_aligned shown_step (shown_state 1%Z) false _ _);
    [discriminate | repeat constructor].
Defined.

Lemma print_first_line_witness :
  ∃ line,
    print shown_step (shown_state 0%Z) false
      = (printName shown_step +:+ EmptyString +:+ line)%string ∧
    Forall2 (at_column line) (starts 2 widths0) (fields0 (shown_state 0%Z)).
Proof.
  refine (print_first_line shown_step (shown_state 0%Z) false _ _);
    [reflexivity | repeat constructor].
Defined.


Lemma print_shows_Krylov_result_witness :
  let m := (initialised false [2; 0] [0; 0] [2; 0] (canned [7; 7] 3 2))%Z in
  ∃ m', (compute 2 1 1 tt;; update 1 2 1 tt) m = Some (tt, m') ∧
        let out := print (this m') (algo_state m') false in
        occurs (pretty 3%Z) out = true ∧ occurs (pretty 2%Z) out = true ∧
        occurs (pretty (iter (algo_state m) + 1)%Z) out = true.
Proof.
  intros m. eexists. split; [vm_compute; reflexivity|].
  refine (print_shows_Krylov_result 2 1 1 tt m _ [7; 7]%Z 3%Z 2%Z false _ _ _);
    [vm_compute; reflexivity | vm_compute; reflexivity | discriminate].
Defined.

End SampleRuns.
